(** * A multi-threaded file search engine: model and verification

    The development follows [searchengine.cpp]: the line scanner of
    [SearchEngine::searchInFile], the directory walk of
    [fs::recursive_directory_iterator], the worker loop of [ThreadPool], the
    driver [SearchEngine::search] and [main].

    Threads are modelled by interleaving: a step of the system is one access
    to the shared memory (the task queue, the result vector, the two atomic
    counters, the output stream) by the driver or by one worker. What is done
    under a lock is one step, and so is each atomic operation. A progress
    line is kept as one item of the output, which holds the values the line
    is made of and is put where the count it shows is loaded; how the pieces
    of lines written by different threads fall between each other is not
    modelled, and nothing below depends on the order of the progress lines.

    The file system is a tree that does not change during a run. A directory
    of it may refuse to be opened and the status of a name may be unreadable:
    the iterator and [fs::is_regular_file] throw there. A file is what its
    stream delivers. *)

From Stdlib Require Import ZArith Lia String Ascii DecimalString.
From stdpp Require Import base tactics option list strings sorting.
From Equations Require Import Equations.

Local Open Scope string_scope.
Local Open Scope Z_scope.
Local Open Scope list_scope.

(** ** Machine integers

    [int] is 32 bits wide. [std::atomic<int>] increments wrap around in two's
    complement; the plain [int lineNumber] is modelled the same way. *)

Definition INT_MIN : Z := - 2 ^ 31.
Definition INT_MAX : Z := 2 ^ 31 - 1.

Definition wrap_int (z : Z) : Z := (z + 2 ^ 31) mod 2 ^ 32 - 2 ^ 31.

(** [x++] on an [int]. *)
Definition int_incr (x : Z) : Z := wrap_int (x + 1).

Definition is_int (z : Z) : Prop := INT_MIN <= z <= INT_MAX.

(** ** Strings: [std::string::find] and [std::getline] *)

(** [line.find(term)]: the position of the first occurrence of [term] in
    [line], [None] for [std::string::npos]. *)
Fixpoint find (line term : string) : option nat :=
  if String.prefix term line then Some 0%nat
  else match line with
       | EmptyString => None
       | String _ rest => S <$> find rest term
       end.

(** The test [line.find(searchTerm) != std::string::npos]. *)
Definition found (line term : string) : bool := bool_decide (find line term ≠ None).

(** [term] occurs in [line] as a literal substring. *)
Definition substring_of (term line : string) : Prop :=
  ∃ pre post : string, line = pre +:+ term +:+ post.

Definition newline : ascii := "010"%char.

(** The characters of the stream up to the first newline, and what is left of
    the stream after the newline has been consumed. *)
Fixpoint until_newline (s : string) : string * string :=
  match s with
  | EmptyString => (EmptyString, EmptyString)
  | String c rest =>
      if Ascii.eqb c newline then (EmptyString, rest)
      else let '(l, r) := until_newline rest in (String c l, r)
  end.

(** [std::getline(file, line)] on a stream that still holds [s]: [None] when
    nothing can be extracted (the stream is at its end), otherwise the line
    and the rest of the stream. *)
Definition getline (s : string) : option (string * string) :=
  match s with
  | EmptyString => None
  | _ => Some (until_newline s)
  end.

(** A value together with the equation that names it, so that a loop can
    keep the result of its test while recursing on it. *)
Definition inspect {A} (a : A) : {b | a = b} := exist _ a eq_refl.

(** The loop of [searchInFile]:
<<
    while (std::getline(file, line)) {
        lineNumber++;
        if (line.find(searchTerm) != std::string::npos)
            matchingLines.push_back(lineNumber);
    }
>>
    on a stream holding [file], from the given values of [lineNumber] and
    [matchingLines]; the result is their values when the loop ends. *)
Equations? scan_loop (searchTerm file : string) (lineNumber : Z) (matchingLines : list Z)
  : Z * list Z by wf (String.length file) lt :=
  scan_loop searchTerm file lineNumber matchingLines with inspect (getline file) := {
    | exist _ None _ => (lineNumber, matchingLines)
    | exist _ (Some (line, rest)) _ =>
        let lineNumber := int_incr lineNumber in
        scan_loop searchTerm rest lineNumber
          (if found line searchTerm then matchingLines ++ [lineNumber] else matchingLines)
  }.
Proof.
  assert (Hrest : ∀ s, (String.length (until_newline s).2 <= String.length s)%nat).
  { intros s; induction s as [|c s IH]; simpl; [lia|].
    destruct (Ascii.eqb c newline); simpl; [lia|].
    destruct (until_newline s); simpl in *; lia. }
  destruct file as [|c file]; [discriminate|].
  match goal with H : getline _ = Some _ |- _ => injection H as H end.
  match goal with H : _ = (line, rest) |- _ => rename H into Hline end.
  destruct (Ascii.eqb c newline).
  - injection Hline as _ <-. simpl; lia.
  - specialize (Hrest file). destruct (until_newline file).
    injection Hline as _ <-. simpl in *; lia.
Qed.

(** [SearchEngine::searchInFile]. [file] is what [std::ifstream file(filepath)]
    gives: [None] when the file cannot be opened, otherwise the characters the
    stream delivers before it stops (at the end of the file, or earlier when a
    read fails: the loop tests only the state [std::getline] leaves). The
    result vector is passed in and out; the lock around [push_back] makes the
    update one step. *)
Definition searchInFile (file : option string) (filepath searchTerm : string)
    (results : list (string * list Z)) : bool * list (string * list Z) :=
  match file with
  | None => (false, results)
  | Some stream =>
      let matchingLines := (scan_loop searchTerm stream 0 []).2 in
      match matchingLines with
      | [] => (false, results)
      | _ :: _ => (true, results ++ [(filepath, matchingLines)])
      end
  end.

(** The lines of a text: its segments between newlines, the last one with or
    without a closing newline. *)
Fixpoint file_lines (s : string) : list string :=
  match s with
  | EmptyString => []
  | String c rest =>
      if Ascii.eqb c newline then EmptyString :: file_lines rest
      else match file_lines rest with
           | [] => [String c EmptyString]
           | l :: ls => String c l :: ls
           end
  end.

(** The loop of [searchInFile] over lines already split. *)
Fixpoint scan_lines (searchTerm : string) (lines : list string)
    (lineNumber : Z) (matchingLines : list Z) : Z * list Z :=
  match lines with
  | [] => (lineNumber, matchingLines)
  | line :: rest =>
      let lineNumber := int_incr lineNumber in
      scan_lines searchTerm rest lineNumber
        (if found line searchTerm then matchingLines ++ [lineNumber] else matchingLines)
  end.

(** The values of [lineNumber] at the lines that contain the term, when the
    line before the first one of [lines] had number [n]. *)
Fixpoint numbers_from (searchTerm : string) (n : Z) (lines : list string) : list Z :=
  match lines with
  | [] => []
  | line :: rest =>
      (if found line searchTerm then [wrap_int (n + 1)] else [])
        ++ numbers_from searchTerm (n + 1) rest
  end.

(** What the line numbers of a file should be: [numbers] holds exactly the
    1-based positions of the lines that contain the term, in strictly
    increasing order (so each of them once). *)
Definition line_numbers_of (searchTerm stream : string) (numbers : list Z) : Prop :=
  (∀ k : Z, k ∈ numbers ↔
     (1 ≤ k)%Z ∧ ∃ line, file_lines stream !! Z.to_nat (k - 1) = Some line
                     ∧ substring_of searchTerm line)
  ∧ StronglySorted Z.lt numbers.

(** A file of [n] lines, each of them the letter [a]. *)
Definition lines_of_a (n : N) : string :=
  N.iter n (λ s, String "a" (String newline s)) EmptyString.

(** ** The file system

    What a path names: a regular file (or a link to one), a directory with its
    named entries, something else (a socket, a device, a dangling link, a
    link to a directory, which the recursive iterator does not follow), a
    directory that cannot be opened for reading ([opendir] is denied), or a
    name whose status cannot be read: [fs::status] fails on it with an error
    other than not-found (a link that leads back to itself, a directory on
    the way that may not be searched, a name that is too long), so that
    whether it leads to anything cannot be told. *)
#[warnings="-register-all"]
Inductive node : Type :=
  | File (stream : option string)
  | Dir (entries : list (string * node))
  | Other
  | Locked
  | NoStatus.

(** [fs::directory_entry]: the entry's path and what it names. *)
Record directory_entry : Type := Entry { path : string; target : node }.

(** [fs::is_regular_file(entry)]: the entry converts to its path, and the
    function reads the status of the path; it throws [fs::filesystem_error]
    ([None]) when the status cannot be read. *)
Definition is_regular_file (e : directory_entry) : option bool :=
  match target e with
  | File _ => Some true
  | NoStatus => None
  | _ => Some false
  end.

(** The status of the entry can be read. *)
Definition has_status (e : directory_entry) : Prop := is_regular_file e ≠ None.

(** What [std::ifstream file(entry.path().string())] opens on the tree the
    entry was read from. *)
Definition ifstream (e : directory_entry) : option string :=
  match target e with File stream => stream | _ => None end.

Fixpoint ends_with_slash (p : string) : bool :=
  match p with
  | EmptyString => false
  | String c EmptyString => Ascii.eqb c "/"
  | String _ rest => ends_with_slash rest
  end.

(** [p / name] of [fs::path], for a relative [name]. *)
Definition path_append (p name : string) : string :=
  if ends_with_slash p then p +:+ name else p +:+ "/" +:+ name.

(** The entries [fs::recursive_directory_iterator(p)] visits when [p] names
    [n], in its order: each entry of a directory, followed by what lies below
    it. *)
Fixpoint walk (p : string) (n : node) : list directory_entry :=
  match n with
  | Dir entries =>
      (fix each (es : list (string * node)) : list directory_entry :=
         match es with
         | [] => []
         | (name, child) :: es' =>
             Entry (path_append p name) child
               :: walk (path_append p name) child ++ each es'
         end) entries
  | _ => []
  end.

(** The regular files among the entries visited, as the two loops of
    [search] select them. *)
Definition regular (entries : list directory_entry) : list directory_entry :=
  filter (λ e, is_regular_file e = Some true) entries.

(** Every directory at or below [n] can be opened. *)
Fixpoint listable (n : node) : bool :=
  match n with
  | Dir entries =>
      (fix each (es : list (string * node)) : bool :=
         match es with
         | [] => true
         | (_, child) :: es' => listable child && each es'
         end) entries
  | Locked => false
  | _ => true
  end.

(** A loop over [fs::recursive_directory_iterator(rootPath)]: the entries it
    visits. The iterator throws [fs::filesystem_error] ([None]) when it is
    built, unless the path names a directory that can be opened, and when it
    is incremented into a directory that cannot be opened (it is built
    without [skip_permission_denied]). *)
Definition recursive_directory_iterator (root : option node) (rootPath : string)
  : option (list directory_entry) :=
  match root with
  | Some (Dir entries) =>
      if listable (Dir entries) then Some (walk rootPath (Dir entries)) else None
  | _ => None
  end.

(** ** The thread pool

    A task is a [std::function<void()>]. Running it is a sequence of accesses
    to the memory it shares with other threads; [run_task t m] performs the
    next access of [t] on the memory [m] and gives what is left of the task,
    [None] when [task()] returns. *)
Section Pool.
Context {Task Shared : Type}.
Variable run_task : Task → Shared → Shared * option Task.

(** A worker thread is blocked in or about to enter [condition.wait], is
    inside [task()] (the task as popped, and what is left of it), or has
    returned from its loop. *)
Inductive worker : Type :=
  | Idle
  | Running (popped current : Task)
  | Exited.

Record ThreadPool : Type := Pool {
  workers : list worker;
  tasks : list Task;
  stop : bool
}.

(** [ThreadPool(threads)]. *)
Definition construct (threads : nat) : ThreadPool :=
  Pool (replicate threads Idle) [] false.

(** [enqueue(f)]. *)
Definition enqueue (f : Task) (p : ThreadPool) : ThreadPool :=
  Pool (workers p) (tasks p ++ [f]) (stop p).

(** The locked block of [~ThreadPool()]: [stop = true]. *)
Definition set_stop (p : ThreadPool) : ThreadPool :=
  Pool (workers p) (tasks p) true.

(** Every [worker.join()] of [~ThreadPool()] returns. *)
Definition joined (p : ThreadPool) : Prop := Forall (λ w, w = Exited) (workers p).

Definition set_worker (i : nat) (w : worker) (p : ThreadPool) : ThreadPool :=
  Pool (<[i := w]> (workers p)) (tasks p) (stop p).

Inductive event : Type :=
  | Popped (i : nat) (t : Task)
  | Stepped (i : nat)
  | Finished (i : nat) (t : Task)
  | Left (i : nat).

(** One step of worker [i]. Under the queue lock, once the wait predicate
    [stop || !tasks.empty()] holds, the worker returns if [stop] is set and
    the queue is empty, and otherwise pops the front task; outside the lock
    it runs the task it popped. *)
Inductive worker_step : ThreadPool * Shared → event → ThreadPool * Shared → Prop :=
  | worker_pop p m i t q :
      workers p !! i = Some Idle →
      tasks p = t :: q →
      worker_step (p, m) (Popped i t)
        (Pool (<[i := Running t t]> (workers p)) q (stop p), m)
  | worker_exit p m i :
      workers p !! i = Some Idle →
      stop p = true →
      tasks p = [] →
      worker_step (p, m) (Left i) (set_worker i Exited p, m)
  | worker_run p m i t c m' c' :
      workers p !! i = Some (Running t c) →
      run_task c m = (m', Some c') →
      worker_step (p, m) (Stepped i) (set_worker i (Running t c') p, m')
  | worker_return p m i t c m' :
      workers p !! i = Some (Running t c) →
      run_task c m = (m', None) →
      worker_step (p, m) (Finished i t) (set_worker i Idle p, m').

(** A pool and its clients: any thread may submit a task while the pool is
    alive, and the owner destroys it once. *)
Inductive pool_event : Type :=
  | Submit (t : Task)
  | Destroy
  | Work (e : event).

Inductive pool_step : ThreadPool * Shared → pool_event → ThreadPool * Shared → Prop :=
  | pool_submit p m t :
      stop p = false →
      pool_step (p, m) (Submit t) (enqueue t p, m)
  | pool_destroy p m :
      stop p = false →
      pool_step (p, m) Destroy (set_stop p, m)
  | pool_work p m e p' m' :
      worker_step (p, m) e (p', m') →
      pool_step (p, m) (Work e) (p', m').

(** Executions with their events, oldest first. *)
Inductive pool_run : ThreadPool * Shared → list pool_event → ThreadPool * Shared → Prop :=
  | pool_run_nil s : pool_run s [] s
  | pool_run_step s es s' e s'' :
      pool_run s es s' → pool_step s' e s'' → pool_run s (es ++ [e]) s''.

Definition submitted (es : list pool_event) : list Task :=
  omap (λ e, match e with Submit t => Some t | _ => None end) es.
Definition started (es : list pool_event) : list Task :=
  omap (λ e, match e with Work (Popped _ t) => Some t | _ => None end) es.
Definition completed (es : list pool_event) : list Task :=
  omap (λ e, match e with Work (Finished _ t) => Some t | _ => None end) es.

(** The tasks some worker is inside of. *)
Definition running (w : worker) : option Task :=
  match w with Running t _ => Some t | _ => None end.
Definition in_flight (p : ThreadPool) : list Task := omap running (workers p).

Definition only_work (es : list pool_event) : Prop :=
  Forall (λ e, match e with Work _ => True | _ => False end) es.

(** A bound on the steps the workers can still take when nothing more is
    submitted, from a bound [size] on the steps of each task: a queued task
    is popped, run and returned from, and a worker that has not left its
    loop may leave it. *)
Variable size : Task → nat.

Definition worker_left (w : worker) : nat :=
  match w with
  | Idle => 1
  | Running _ c => size c + 2
  | Exited => 0
  end.

Definition work_left (p : ThreadPool) : nat :=
  sum_list_with (λ t, size t + 2)%nat (tasks p) + sum_list_with worker_left (workers p).
End Pool.

Arguments worker : clear implicits.
Arguments ThreadPool : clear implicits.
Arguments event : clear implicits.
Arguments pool_event : clear implicits.

(** What holds of a pool throughout its life, where [es] are the events so
    far. *)
Record pool_inv {Task : Type} (threads : nat) (es : list (pool_event Task))
    (p : ThreadPool Task) : Prop := {
  inv_threads : length (workers p) = threads;
  inv_queue : submitted es ≡ₚ started es ++ tasks p;
  inv_flight : started es ≡ₚ completed es ++ in_flight p;
  inv_exited : (∃ i, workers p !! i = Some Exited) → stop p = true ∧ tasks p = []
}.

(** ** The search engine *)

(** What is written to [std::cout]. The elapsed time and the percentage of
    the progress line are not computed here: the items that stand for them
    keep what they are computed from. *)
Inductive out_item : Type :=
  | Text (s : string)
  | Progress (num den : Z) (processed total : Z)
      (* "\rProgress: <num / den * 100>% (<processed>/<total> files)" *)
  | Completed.
      (* "\nSearch completed in <elapsed> seconds.\n" *)

(** The members of [SearchEngine], and [std::cout]. *)
Record memory : Type := Memory {
  results : list (string * list Z);
  files_processed : Z;
  total_files : Z;
  cout : list out_item
}.

(** The closure [search] enqueues for an entry, and what is left of it after
    each of its accesses to the shared memory. *)
Inductive task : Type :=
  | Scan (entry : directory_entry)
      (* about to call searchInFile(entry.path().string(), searchTerm) *)
  | Count
      (* about to do files_processed++ *)
  | Divide
      (* about to compute static_cast<float>(files_processed) / total_files * 100 *)
  | Output (num den : Z).
      (* about to load files_processed for the count shown and to write the
         progress line *)

Definition run_task (searchTerm : string) (t : task) (m : memory) : memory * option task :=
  match t with
  | Scan entry =>
      let r := searchInFile (ifstream entry) (path entry) searchTerm (results m) in
      (Memory r.2 (files_processed m) (total_files m) (cout m), Some Count)
  | Count =>
      (Memory (results m) (int_incr (files_processed m)) (total_files m) (cout m),
       Some Divide)
  | Divide => (m, Some (Output (files_processed m) (total_files m)))
  | Output num den =>
      (Memory (results m) (files_processed m) (total_files m)
         (cout m ++ [Progress num den (files_processed m) (total_files m)]),
       None)
  end.

(** The number of accesses a task still has to make before its last. *)
Definition task_size (t : task) : nat :=
  match t with Scan _ => 3 | Count => 2 | Divide => 1 | Output _ _ => 0 end.

(** The first loop of [search] over the entries the iterator gives:
    [total_files++] for each regular file; [None] when [fs::is_regular_file]
    throws. *)
Fixpoint count_files (entries : list directory_entry) (total : Z) : option Z :=
  match entries with
  | [] => Some total
  | e :: rest =>
      match is_regular_file e with
      | Some true => count_files rest (int_incr total)
      | Some false => count_files rest total
      | None => None
      end
  end.

Definition decimal (z : Z) : string := NilZero.string_of_int (Z.to_int z).

(** [result.second] as the inner loop writes it: the numbers separated by
    [", "]. *)
Fixpoint join_lines (ls : list Z) : string :=
  match ls with
  | [] => ""
  | [l] => decimal l
  | l :: ls' => decimal l +:+ ", " +:+ join_lines ls'
  end.

Definition endl : string := String newline "".

(** What [search] prints once its wait loop has ended. *)
Definition report (results : list (string * list Z)) : list out_item :=
  [ Completed;
    Text ("Found " +:+ decimal (Z.of_nat (length results))
          +:+ " files containing the search term." +:+ endl) ]
  ++ match results with
     | [] => []
     | _ :: _ =>
         Text (String newline "Results:" +:+ endl)
           :: flat_map (λ r, [ Text ("File: " +:+ r.1 +:+ endl);
                               Text ("  Matching lines: " +:+ join_lines r.2 +:+ endl) ])
                results
     end.

(** Where the thread that runs [search] is. *)
Inductive driver : Type :=
  | Counting
      (* before the first loop *)
  | Dispatching (rest : list directory_entry)
      (* in the second loop, with the entries still to visit; with none left,
         in the wait loop *)
  | Reported
      (* the results are printed; about to leave the scope of [pool] *)
  | Joining
      (* in ~ThreadPool(), joining the workers *)
  | Returned
  | Thrown.
      (* fs::filesystem_error has left [search]; the engine is destroyed on
         the way to the handler, and its members are not looked at again *)

Record system : Type := System {
  control : driver;
  pool : ThreadPool task;
  mem : memory
}.

Inductive label : Type :=
  | LCount
  | LThrow
  | LEnqueue (e : directory_entry)
  | LSkip (e : directory_entry)
  | LReport
  | LStop
  | LJoin
  | LWorker (e : event task).

Section Search.
(** What [rootPath] names, the two arguments of [search], and the value of
    [std::thread::hardware_concurrency()]. The tree is the same in both
    loops: the second loop visits the entries the first one has visited, and
    [fs::is_regular_file] answers as it did, so that whatever throws throws
    in the first loop, before the pool is built. *)
Variable root : option node.
Variables rootPath searchTerm : string.
Variable hardware_concurrency : nat.

(** The state in which [search] is entered: [pool] does not exist yet, which
    the pool without workers and tasks stands for. *)
Definition initial : system :=
  System Counting (construct 0) (Memory [] 0 0 []).

(** One step of the driver or of a worker. The first loop is one step: no
    other thread exists while it runs. It ends with [total_files] counted,
    or it throws, from the iterator or from [fs::is_regular_file]; what it
    had counted when it throws is not kept. *)
Inductive step : system → label → system → Prop :=
  | step_count p m entries total :
      recursive_directory_iterator root rootPath = Some entries →
      count_files entries (total_files m) = Some total →
      step (System Counting p m) LCount
        (System (Dispatching entries) (construct hardware_concurrency)
           (Memory (results m) (files_processed m) total (cout m)))
  | step_throw p m :
      recursive_directory_iterator root rootPath
        ≫= (λ entries, count_files entries (total_files m)) = None →
      step (System Counting p m) LThrow (System Thrown p m)
  | step_enqueue p m e rest :
      is_regular_file e = Some true →
      step (System (Dispatching (e :: rest)) p m) (LEnqueue e)
        (System (Dispatching rest) (enqueue (Scan e) p) m)
  | step_skip p m e rest :
      is_regular_file e = Some false →
      step (System (Dispatching (e :: rest)) p m) (LSkip e)
        (System (Dispatching rest) p m)
  | step_report p m :
      ¬ (files_processed m < total_files m) →
      step (System (Dispatching []) p m) LReport
        (System Reported p
           (Memory (results m) (files_processed m) (total_files m)
              (cout m ++ report (results m))))
  | step_stop p m :
      step (System Reported p m) LStop (System Joining (set_stop p) m)
  | step_join p m :
      joined p →
      step (System Joining p m) LJoin (System Returned p m)
  | step_worker c p m e p' m' :
      worker_step (run_task searchTerm) (p, m) e (p', m') →
      step (System c p m) (LWorker e) (System c p' m').

(** Executions of [search] with their labels, oldest first. *)
Inductive run : system → list label → system → Prop :=
  | run_nil s : run s [] s
  | run_step s ls s' l s'' :
      run s ls s' → step s' l s'' → run s (ls ++ [l]) s''.
End Search.

(** *** Running [search] under a schedule

    A schedule says which thread moves next; the move itself is determined
    by the state. *)
Inductive move : Type :=
  | Driver
  | Worker (i : nat).

Definition has_exited (w : worker task) : bool :=
  match w with Exited => true | _ => false end.

Section Schedule.
Variable root : option node.
Variables rootPath searchTerm : string.
Variable hardware_concurrency : nat.

(** The move of the driver, if it has one. *)
Definition drive (s : system) : option (label * system) :=
  let p := pool s in
  let m := mem s in
  match control s with
  | Counting =>
      match recursive_directory_iterator root rootPath with
      | Some entries =>
          match count_files entries (total_files m) with
          | Some total =>
              Some (LCount,
                    System (Dispatching entries) (construct hardware_concurrency)
                      (Memory (results m) (files_processed m) total (cout m)))
          | None => Some (LThrow, System Thrown p m)
          end
      | None => Some (LThrow, System Thrown p m)
      end
  | Dispatching (e :: rest) =>
      match is_regular_file e with
      | Some true => Some (LEnqueue e, System (Dispatching rest) (enqueue (Scan e) p) m)
      | Some false => Some (LSkip e, System (Dispatching rest) p m)
      | None => None
      end
  | Dispatching [] =>
      if decide (files_processed m < total_files m) then None
      else Some (LReport,
                 System Reported p
                   (Memory (results m) (files_processed m) (total_files m)
                      (cout m ++ report (results m))))
  | Reported => Some (LStop, System Joining (set_stop p) m)
  | Joining =>
      if forallb has_exited (workers p) then Some (LJoin, System Returned p m)
      else None
  | Returned | Thrown => None
  end.

Definition work (i : nat) (s : system) : option (label * system) :=
  let p := pool s in
  let m := mem s in
  match workers p !! i with
  | Some Idle =>
      match tasks p with
      | t :: q =>
          Some (LWorker (Popped i t),
                System (control s)
                  (Pool (<[i := Running t t]> (workers p)) q (stop p)) m)
      | [] =>
          if stop p
          then Some (LWorker (Left i), System (control s) (set_worker i Exited p) m)
          else None
      end
  | Some (Running t c) =>
      match run_task searchTerm c m with
      | (m', Some c') =>
          Some (LWorker (Stepped i),
                System (control s) (set_worker i (Running t c') p) m')
      | (m', None) =>
          Some (LWorker (Finished i t), System (control s) (set_worker i Idle p) m')
      end
  | _ => None
  end.

Definition make_move (mv : move) (s : system) : option (label * system) :=
  match mv with Driver => drive s | Worker i => work i s end.

(** The labels and the last state of the run a schedule gives, if every
    move of it can be made. *)
Fixpoint schedule (mvs : list move) (s : system) : option (list label * system) :=
  match mvs with
  | [] => Some ([], s)
  | mv :: mvs' =>
      match make_move mv s with
      | Some (l, s') =>
          match schedule mvs' s' with
          | Some (ls, s'') => Some (l :: ls, s'')
          | None => None
          end
      | None => None
      end
  end.
End Schedule.

(** A tree and a schedule of two workers on it, up to the end of the wait
    loop and from there to the return of [search]. *)
Definition small_tree : node :=
  Dir [ ("a.txt", File (Some ("xfoo" +:+ String newline "bar" +:+ String newline "foo")));
        ("sub", Dir [ ("b.txt", File (Some "bar")); ("locked", File None) ]);
        ("pipe", Other) ].

Definition small_schedule : list move :=
  [ Driver; Driver; Worker 0; Driver; Driver; Worker 1; Worker 1; Worker 0; Driver; Driver;
    Worker 1; Worker 0; Worker 1; Worker 1; Worker 0; Worker 0;
    Worker 0; Worker 0; Worker 0; Worker 0; Worker 0 ].

Definition small_finish : list move :=
  [ Driver; Driver; Worker 1; Worker 0; Driver ].

(** The run of [small_schedule] on [small_tree], and the state in which it
    leaves [search]: in the wait loop, with every file counted. *)
Definition small_labels : list label := Eval vm_compute in
  match schedule (Some small_tree) "d" "foo" 2 small_schedule initial with
  | Some (ls, _) => ls
  | None => []
  end.

Definition small_state : system := Eval vm_compute in
  match schedule (Some small_tree) "d" "foo" 2 small_schedule initial with
  | Some (_, s) => s
  | None => initial
  end.

(** The same files visited by another schedule: the second worker pushes its
    result first. *)
Definition two_files : node :=
  Dir [ ("a.txt", File (Some "foo")); ("b.txt", File (Some "foo")) ].

Definition first_worker_first : list move :=
  [ Driver; Driver; Driver; Worker 0; Worker 1; Worker 0; Worker 1;
    Worker 0; Worker 0; Worker 0; Worker 1; Worker 1; Worker 1 ].

Definition second_worker_first : list move :=
  [ Driver; Driver; Driver; Worker 0; Worker 1; Worker 1; Worker 0;
    Worker 0; Worker 0; Worker 0; Worker 1; Worker 1; Worker 1 ].

(** ** [main] *)

(** A file system for the examples: [d] names [small_tree], [empty] names a
    directory with an empty directory in it, and nothing else exists. *)
Definition small_filesystem (p : string) : option node :=
  if String.eqb p "d" then Some small_tree
  else if String.eqb p "empty" then Some (Dir [("sub", Dir [])])
  else None.

(** A directory with a file that holds the term and a directory that cannot
    be opened. *)
Definition locked_tree : node :=
  Dir [ ("a.txt", File (Some "foo")); ("private", Locked) ].

(** A file system in which [loop] is a link that leads back to itself,
    [guarded] is a directory that holds no regular file and a directory
    that cannot be opened, [links] is a directory that holds nothing but
    such a link, and nothing else exists. *)
Definition guarded_filesystem (p : string) : option node :=
  if String.eqb p "loop" then Some NoStatus
  else if String.eqb p "guarded" then Some (Dir [("notes", Dir []); ("private", Locked)])
  else if String.eqb p "links" then Some (Dir [("self", NoStatus)])
  else None.

Record outcome : Type := Outcome {
  stdout : list out_item;
  stderr : list string;
  exit_code : Z
}.

(** [e.what()] of a [fs::filesystem_error], which the model does not spell
    out. *)
Definition what : string := "filesystem error".

Section Main.
(** What each path names, and the number of hardware threads. *)
Variable filesystem : string → option node.
Variable hardware_concurrency : nat.

(** [fs::exists(p)]: it reads the status of [p], gives [false] when the
    status is not-found, and throws [fs::filesystem_error] ([None]) when the
    status cannot be read. *)
Definition exists_ (p : string) : option bool :=
  match filesystem p with
  | None => Some false
  | Some NoStatus => None
  | Some _ => Some true
  end.

(** The runs of [main] on the argument vector [argv] ([argv[0]] first). *)
Inductive main : list string → outcome → Prop :=
  | main_usage argv :
      (length argv < 3)%nat →
      main argv
        (Outcome [Text ("Usage: " +:+ default "" (argv !! 0%nat)
                        +:+ " <directory_path> <search_term>" +:+ endl)] [] 1)
  | main_missing argv0 directoryPath searchTerm more :
      exists_ directoryPath = Some false →
      main (argv0 :: directoryPath :: searchTerm :: more)
        (Outcome [] ["Directory does not exist." +:+ endl] 1)
  | main_search argv0 directoryPath searchTerm more ls s :
      exists_ directoryPath = Some true →
      run (filesystem directoryPath) directoryPath searchTerm hardware_concurrency
        initial ls s →
      control s = Returned →
      main (argv0 :: directoryPath :: searchTerm :: more)
        (Outcome (Text ("Searching for '" +:+ searchTerm +:+ "' in "
                        +:+ directoryPath +:+ endl) :: cout (mem s)) [] 0)
  | main_filesystem_error argv0 directoryPath searchTerm more ls s :
      exists_ directoryPath = Some true →
      run (filesystem directoryPath) directoryPath searchTerm hardware_concurrency
        initial ls s →
      control s = Thrown →
      main (argv0 :: directoryPath :: searchTerm :: more)
        (Outcome (Text ("Searching for '" +:+ searchTerm +:+ "' in "
                        +:+ directoryPath +:+ endl) :: cout (mem s))
           ["Filesystem error: " +:+ what +:+ endl] 1)
  | main_status_error argv0 directoryPath searchTerm more :
      exists_ directoryPath = None →
      main (argv0 :: directoryPath :: searchTerm :: more)
        (Outcome [] ["Filesystem error: " +:+ what +:+ endl] 1).
End Main.

(** ** Bookkeeping for the proofs *)

(** The entry [searchInFile] appends for a file, if any. *)
Definition result_of (searchTerm : string) (e : directory_entry) : option (string * list Z) :=
  match ifstream e with
  | None => None
  | Some stream =>
      match (scan_loop searchTerm stream 0 []).2 with
      | [] => None
      | matchingLines => Some (path e, matchingLines)
      end
  end.

(** A file that can be opened and has a line containing the term. *)
Definition file_matches (searchTerm : string) (e : directory_entry) : Prop :=
  ∃ stream line,
    ifstream e = Some stream ∧ line ∈ file_lines stream ∧ substring_of searchTerm line.

Definition entry_of (t : task) : option directory_entry :=
  match t with Scan e => Some e | _ => None end.

(** The task a worker is inside of, once its [searchInFile] has returned. *)
Definition scanned (w : worker task) : option task :=
  match w with
  | Running t (Count | Divide | Output _ _) => Some t
  | _ => None
  end.

(** What a task contributes to the results. *)
Definition task_result (searchTerm : string) (t : task) : option (string * list Z) :=
  entry_of t ≫= result_of searchTerm.

(** 1 for a worker inside a task that has done its [files_processed++]. *)
Definition counted (w : worker task) : nat :=
  match w with
  | Running _ (Divide | Output _ _) => 1
  | _ => 0
  end.

(** What a worker of [search] can be doing when [total_files] is [total]. *)
Definition worker_ok (total : Z) (w : worker task) : Prop :=
  match w with
  | Running t c =>
      ∃ e, t = Scan e ∧ is_regular_file e = Some true
           ∧ (c = Scan e ∨ c = Count ∨ c = Divide ∨ ∃ num, c = Output num total)
  | _ => True
  end.

Definition pool_event_of (l : label) : option (pool_event task) :=
  match l with
  | LEnqueue e => Some (Submit (Scan e))
  | LStop => Some Destroy
  | LWorker ev => Some (Work ev)
  | _ => None
  end.

Definition pool_events (ls : list label) : list (pool_event task) := omap pool_event_of ls.

(** The entries the second loop has still to visit. *)
Definition rest_of (c : driver) : list directory_entry :=
  match c with Dispatching rest => rest | _ => [] end.

Definition stopping (c : driver) : bool :=
  match c with Joining | Returned => true | _ => false end.

Definition has_reported (c : driver) : bool :=
  match c with Reported | Joining | Returned => true | _ => false end.

Definition is_progress (o : out_item) : bool :=
  match o with Progress _ _ _ _ => true | _ => false end.

(** What the workers wrote to [std::cout], and what the driver wrote. *)
Definition progress_items (out : list out_item) : list out_item :=
  filter (λ o, is_progress o = true) out.
Definition driver_items (out : list out_item) : list out_item :=
  filter (λ o, is_progress o = false) out.

(** What holds of [search] once the first loop has counted [entries]. *)
Record search_inv (searchTerm : string) (threads : nat) (entries : list directory_entry)
    (ls : list label) (s : system) : Prop := {
  si_pool : pool_inv threads (pool_events ls) (pool s);
  si_dispatch :
    Scan <$> regular entries
    = submitted (pool_events ls) ++ (Scan <$> regular (rest_of (control s)));
  si_stop : stop (pool s) = stopping (control s);
  si_workers : Forall (worker_ok (total_files (mem s))) (workers (pool s));
  si_results :
    results (mem s)
    ≡ₚ omap (task_result searchTerm)
         (completed (pool_events ls) ++ omap scanned (workers (pool s)));
  si_processed :
    files_processed (mem s)
    = wrap_int (Z.of_nat (length (completed (pool_events ls))
                          + sum_list_with counted (workers (pool s))));
  si_total : total_files (mem s) = wrap_int (Z.of_nat (length (regular entries)));
  si_joined : control s = Returned → joined (pool s);
  si_progress :
    Forall (λ o, ∀ a b c d, o = Progress a b c d
                            → b = total_files (mem s) ∧ d = total_files (mem s))
      (cout (mem s));
  si_progress_count :
    length (progress_items (cout (mem s))) = length (completed (pool_events ls));
  si_report :
    ∃ rs, driver_items (cout (mem s))
          = (if has_reported (control s) then report rs else [])
          ∧ rs `prefix_of` results (mem s);
  si_status : Forall has_status entries;
  si_rest : rest_of (control s) `suffix_of` entries
}.

(** Every regular file has been dispatched, and every task has done its
    [files_processed++]. *)
Definition all_counted (s : system) : Prop :=
  regular (rest_of (control s)) = []
  ∧ tasks (pool s) = []
  ∧ ∀ i t c, workers (pool s) !! i = Some (Running t c)
             → c = Divide ∨ ∃ num den, c = Output num den.

(** A tree of directories with two entries each, [depth] levels deep, over
    copies of [leaf]. *)
Fixpoint full_tree (depth : nat) (leaf : node) : node :=
  match depth with
  | O => leaf
  | S d => Dir [("0", full_tree d leaf); ("1", full_tree d leaf)]
  end.

Arguments full_tree : simpl never.

(** A bound on the steps [search] can still take once its first loop has
    run: six for each entry the second loop has to visit (one to visit it and
    five for its task), the steps left to the driver, and the steps left to
    the workers. *)
Definition steps_left (s : system) : nat :=
  match control s with
  | Counting | Thrown | Returned => 0
  | Dispatching rest => 6 * length rest + 3
  | Reported => 2
  | Joining => 1
  end + work_left task_size (pool s).

Definition final (s : system) : Prop := control s = Returned ∨ control s = Thrown.

(** [2 ^ 31] and [2 ^ 32] regular files that hold the line [a]. *)
Definition tree_2_31 : node := full_tree 31 (File (Some "a")).
Definition tree_2_32 : node := full_tree 32 (File (Some "a")).

(** The invariant of [search]: before the first loop nothing has happened;
    when the first loop throws nothing happens any more. *)
Definition inv (root : option node) (rootPath searchTerm : string) (threads : nat)
    (ls : list label) (s : system) : Prop :=
  match control s with
  | Counting => ls = [] ∧ s = initial
  | Thrown =>
      ls = [LThrow] ∧ s = System Thrown (construct 0) (Memory [] 0 0 [])
      ∧ recursive_directory_iterator root rootPath
          ≫= (λ entries, count_files entries 0) = None
  | _ =>
      ∃ entries,
        recursive_directory_iterator root rootPath = Some entries
        ∧ search_inv searchTerm threads entries ls s
  end.

(** ** More of the code: definitions *)

(** Whether a string holds a newline character. *)
Fixpoint has_newline (s : string) : bool :=
  match s with
  | EmptyString => false
  | String c rest => Ascii.eqb c newline || has_newline rest
  end.

(** [std::size_t] is 64 bits wide and unsigned. *)
Definition wrap_size (z : Z) : Z := z mod 2 ^ 64.

(** The inner loop of the report:
<<
    for (size_t i = 0; i < result.second.size(); ++i) {
        std::cout << result.second[i];
        if (i < result.second.size() - 1) std::cout << ", ";
    }
>>
    from the index [i], with [out] what the loop has written so far; [fuel]
    bounds the number of iterations. *)
Fixpoint lines_loop (fuel : nat) (second : list Z) (i : Z) (out : string) : string :=
  match fuel with
  | O => out
  | S fuel' =>
      if i <? Z.of_nat (length second) then
        let out := out +:+ decimal (default 0 (second !! Z.to_nat i)) in
        let out :=
          if i <? wrap_size (Z.of_nat (length second) - 1) then out +:+ ", " else out in
        lines_loop fuel' second (wrap_size (i + 1)) out
      else out
  end.

(** What a progress line may hold when [total_files] is [total]: the counter
    it computed the percentage from and the counter it shows are between 1
    and [total], the first not above the second. *)
Definition progress_ok (total : Z) (o : out_item) : Prop :=
  match o with
  | Progress num den processed tot =>
      den = total ∧ tot = total ∧ 1 ≤ num ∧ num ≤ processed ∧ processed ≤ total
  | _ => True
  end.

(** The run of [small_schedule] followed by [small_finish], which ends with
    the return of [search]. *)
Definition small_final_labels : list label := Eval vm_compute in
  match schedule (Some small_tree) "d" "foo" 2 (small_schedule ++ small_finish) initial with
  | Some (ls, _) => ls
  | None => []
  end.

Definition small_final_state : system := Eval vm_compute in
  match schedule (Some small_tree) "d" "foo" 2 (small_schedule ++ small_finish) initial with
  | Some (_, s) => s
  | None => initial
  end.

(** [search] on [small_tree] with a pool of no workers, once the driver has
    counted and queued every file. *)
Definition stalled_labels : list label := Eval vm_compute in
  match schedule (Some small_tree) "d" "foo" 0
          [Driver; Driver; Driver; Driver; Driver; Driver] initial with
  | Some (ls, _) => ls
  | None => []
  end.

Definition stalled_state : system := Eval vm_compute in
  match schedule (Some small_tree) "d" "foo" 0
          [Driver; Driver; Driver; Driver; Driver; Driver] initial with
  | Some (_, s) => s
  | None => initial
  end.

(** [q] is [p] followed by something. *)
Definition extends (p q : string) : Prop := ∃ suffix, q = p +:+ suffix.

(** What holds besides the invariant when [total_files] has not wrapped. *)
Record bounded_inv (s : system) : Prop := {
  bi_output : ∀ i t num den,
    workers (pool s) !! i = Some (Running t (Output num den)) →
    1 ≤ num ∧ num ≤ files_processed (mem s);
  bi_progress : Forall (progress_ok (total_files (mem s))) (cout (mem s));
  bi_reported :
    has_reported (control s) = true →
    files_processed (mem s) = total_files (mem s)
    ∧ driver_items (cout (mem s)) = report (results (mem s))
}.

(** * Properties *)

(** ** Machine integers *)

Lemma wrap_int_id z : is_int z → wrap_int z = z.
Proof.
  unfold is_int, INT_MIN, INT_MAX, wrap_int. intros Hz.
  rewrite Z.mod_small by lia. lia.
Qed.

Lemma wrap_int_is_int z : is_int (wrap_int z).
Proof.
  unfold is_int, INT_MIN, INT_MAX, wrap_int.
  pose proof (Z.mod_pos_bound (z + 2 ^ 31) (2 ^ 32)). lia.
Qed.

Lemma int_incr_wrap z : int_incr (wrap_int z) = wrap_int (z + 1).
Proof.
  unfold int_incr, wrap_int. f_equal.
  replace ((z + 2 ^ 31) mod 2 ^ 32 - 2 ^ 31 + 1 + 2 ^ 31)
    with ((z + 2 ^ 31) mod 2 ^ 32 + 1) by lia.
  replace (z + 1 + 2 ^ 31) with ((z + 2 ^ 31) + 1) by lia.
  rewrite Zplus_mod_idemp_l. done.
Qed.

(** ** [find] and substrings *)

Lemma prefix_app (term line : string) :
  String.prefix term line = true ↔ ∃ post, line = term +:+ post.
Proof.
  revert term; induction line as [|d line IH]; intros [|c term]; simpl.
  - split; [intros _; by exists "" | done].
  - split; [done | intros [post [=]]].
  - split; [intros _; by exists (String d line) | done].
  - destruct (Ascii.ascii_dec c d) as [->|Hcd].
    + rewrite IH. split; intros [post Hpost]; exists post.
      * by rewrite Hpost.
      * by injection Hpost.
    + split; [done | intros [post [=]]; congruence].
Qed.

Lemma find_Some_substring (line term : string) :
  find line term ≠ None ↔ substring_of term line.
Proof.
  induction line as [|c line IH].
  - cbn [find]. destruct (String.prefix term "") eqn:Hp.
    + split; [intros _ | done]. apply prefix_app in Hp as [post Hpost].
      exists "", post. done.
    + split; [done|]. intros (pre & post & Heq).
      destruct pre; [|done]. simpl in Heq.
      assert (String.prefix term "" = true) by (apply prefix_app; eauto). congruence.
  - cbn [find]. destruct (String.prefix term (String c line)) eqn:Hp.
    + split; [intros _ | done]. apply prefix_app in Hp as [post Hpost].
      exists "", post. done.
    + rewrite fmap_None, IH.
      split; intros (pre & post & Heq).
      * exists (String c pre), post. simpl. by rewrite Heq.
      * destruct pre as [|d pre]; simpl in Heq.
        -- assert (String.prefix term (String c line) = true)
             by (apply prefix_app; eauto). congruence.
        -- injection Heq as _ ->. by exists pre, post.
Qed.

Lemma found_substring (line term : string) :
  found line term = true ↔ substring_of term line.
Proof. unfold found. rewrite bool_decide_eq_true. apply find_Some_substring. Qed.

Lemma found_empty_term (line : string) : found line "" = true.
Proof. apply found_substring. by exists "", line. Qed.

(** ** [std::getline] and the lines of a file *)

Lemma until_newline_lines (c : ascii) (s : string) :
  file_lines (String c s)
  = (until_newline (String c s)).1 :: file_lines (until_newline (String c s)).2.
Proof.
  revert c; induction s as [|d s IH]; intros c.
  - simpl. by destruct (Ascii.eqb c newline).
  - specialize (IH d). cbn [file_lines until_newline] in *.
    destruct (Ascii.eqb c newline); [done|].
    destruct (Ascii.eqb d newline); [done|].
    destruct (until_newline s) as [l r]. simpl in *.
    destruct (file_lines s); by injection IH as <- <-.
Qed.

Lemma getline_lines (s : string) :
  match getline s with
  | None => file_lines s = []
  | Some (line, rest) => file_lines s = line :: file_lines rest
  end.
Proof.
  destruct s as [|c s]; [done|]. unfold getline.
  rewrite until_newline_lines. by destruct (until_newline (String c s)).
Qed.

Lemma scan_loop_lines (searchTerm file : string) (lineNumber : Z) (matchingLines : list Z) :
  scan_loop searchTerm file lineNumber matchingLines
  = scan_lines searchTerm (file_lines file) lineNumber matchingLines.
Proof.
  funelim (scan_loop searchTerm file lineNumber matchingLines);
    clear Heqcall; pose proof (getline_lines file) as Hl;
    match goal with e : getline file = _ |- _ => rewrite e in Hl end;
    rewrite Hl; simpl.
  - match goal with IH : scan_loop _ _ _ _ = scan_lines _ _ _ _ |- _ => apply IH end.
  - done.
Qed.

(** ** The line numbers of [searchInFile] *)

Lemma scan_lines_numbers (searchTerm : string) (lines : list string) (n : Z) (ml : list Z) :
  scan_lines searchTerm lines (wrap_int n) ml
  = (wrap_int (n + Z.of_nat (length lines)), ml ++ numbers_from searchTerm n lines).
Proof.
  revert n ml; induction lines as [|line lines IH]; intros n ml; simpl.
  - by rewrite Z.add_0_r, app_nil_r.
  - rewrite int_incr_wrap, IH. f_equal; [f_equal; lia|].
    destruct (found line searchTerm); simpl; [by rewrite <- app_assoc | done].
Qed.

Lemma matchingLines_numbers (searchTerm stream : string) :
  (scan_loop searchTerm stream 0 []).2 = numbers_from searchTerm 0 (file_lines stream).
Proof.
  rewrite scan_loop_lines. change 0 with (wrap_int 0) at 1.
  by rewrite scan_lines_numbers.
Qed.

Lemma numbers_from_spec (searchTerm : string) (lines : list string) (n : Z) :
  0 ≤ n → n + Z.of_nat (length lines) ≤ INT_MAX →
  (∀ k : Z, k ∈ numbers_from searchTerm n lines ↔
     n < k ∧ ∃ line, lines !! Z.to_nat (k - n - 1) = Some line
                     ∧ found line searchTerm = true)
  ∧ StronglySorted Z.lt (numbers_from searchTerm n lines).
Proof.
  revert n; induction lines as [|line lines IH]; intros n Hn Hmax.
  - split; [|constructor]. intros k; simpl. rewrite elem_of_nil.
    split; [done | by intros (_ & ? & ? & _)].
  - cbn [numbers_from length] in *.
    destruct (IH (n + 1)) as [IHin IHsorted]; [lia | lia |].
    assert (Hw : wrap_int (n + 1) = n + 1).
    { apply wrap_int_id. unfold is_int, INT_MIN, INT_MAX in *. lia. }
    rewrite Hw. split.
    + intros k. rewrite elem_of_app, IHin. split.
      * intros [Hhead | (Hk & l & Hl & Hfound)].
        -- destruct (found line searchTerm) eqn:Hf; [|by apply elem_of_nil in Hhead].
           apply list_elem_of_singleton in Hhead as ->.
           split; [lia|]. exists line.
           replace (n + 1 - n - 1) with 0 by lia. done.
        -- split; [lia|]. exists l.
           replace (Z.to_nat (k - n - 1)) with (S (Z.to_nat (k - (n + 1) - 1))) by lia.
           done.
      * intros (Hk & l & Hl & Hfound).
        destruct (decide (k = n + 1)) as [->|Hne].
        -- left. replace (n + 1 - n - 1) with 0 in Hl by lia.
           injection Hl as ->. rewrite Hfound. by apply list_elem_of_singleton.
        -- right. split; [lia|]. exists l.
           replace (Z.to_nat (k - n - 1)) with (S (Z.to_nat (k - (n + 1) - 1))) in Hl by lia.
           done.
    + assert (Hall : Forall (Z.lt (n + 1)) (numbers_from searchTerm (n + 1) lines)).
      { apply Forall_forall. intros k Hk. by apply IHin in Hk as [? _]. }
      destruct (found line searchTerm); simpl; [by constructor | done].
Qed.

Lemma file_lines_nonempty (stream : string) : stream ≠ "" → file_lines stream ≠ [].
Proof.
  destruct stream as [|c s]; [done|]. intros _. simpl.
  destruct (Ascii.eqb c newline); [done|]. by destruct (file_lines s).
Qed.

Lemma numbers_from_empty_term (n : Z) (lines : list string) :
  numbers_from "" n lines
  = map (λ i, wrap_int (n + Z.of_nat i)) (seq 1 (length lines)).
Proof.
  revert n; induction lines as [|line lines IH]; intros n; [done|].
  cbn [numbers_from length]. rewrite found_empty_term, IH.
  cbn [seq map app]. f_equal. rewrite <- (seq_shift _ 1), map_map.
  apply map_ext. intros i. f_equal. lia.
Qed.

Lemma numbers_from_nil (searchTerm : string) (n : Z) (lines : list string) :
  numbers_from searchTerm n lines = []
  ↔ ∀ line, line ∈ lines → found line searchTerm = false.
Proof.
  revert n; induction lines as [|line lines IH]; intros n; simpl.
  - split; [intros _ ? Hin; by apply elem_of_nil in Hin | done].
  - destruct (found line searchTerm) eqn:Hf; simpl.
    + split; [done|]. intros H. specialize (H line (list_elem_of_here _ _)). congruence.
    + rewrite IH. split.
      * intros H l [->|Hin]%elem_of_cons; auto.
      * intros H l Hin. apply H. by right.
Qed.

Lemma lines_of_a_succ (n : N) :
  lines_of_a (N.succ n) = String "a" (String newline (lines_of_a n)).
Proof. unfold lines_of_a. by rewrite N.iter_succ. Qed.

Lemma lines_of_a_numbers (searchTerm : string) (n : N) :
  found "a" searchTerm = true →
  ∀ (m : Z) (k : N), (k < n)%N →
    wrap_int (m + Z.of_N k + 1) ∈ numbers_from searchTerm m (file_lines (lines_of_a n)).
Proof.
  intros Hfound. induction n as [|n IH] using N.peano_ind; intros m k Hk; [lia|].
  rewrite lines_of_a_succ.
  change (file_lines (String "a" (String newline (lines_of_a n))))
    with ("a" :: file_lines (lines_of_a n)).
  cbn [numbers_from]. rewrite Hfound. cbn [app].
  destruct (decide (k = 0%N)) as [->|Hne].
  - replace (m + Z.of_N 0 + 1) with (m + 1) by lia. apply list_elem_of_here.
  - apply list_elem_of_further.
    replace (m + Z.of_N k + 1) with ((m + 1) + Z.of_N (N.pred k) + 1) by lia.
    apply IH. lia.
Qed.

Lemma lines_of_a_last (searchTerm : string) :
  found "a" searchTerm = true →
  INT_MIN ∈ (scan_loop searchTerm (lines_of_a (2 ^ 31)) 0 []).2.
Proof.
  intros Hfound. rewrite matchingLines_numbers.
  pose proof (lines_of_a_numbers searchTerm (2 ^ 31) Hfound 0 (2 ^ 31 - 1)%N) as Hlast.
  assert (Hw : wrap_int (0 + Z.of_N (2 ^ 31 - 1) + 1) = INT_MIN)
    by (vm_compute; reflexivity).
  rewrite Hw in Hlast. apply Hlast. reflexivity.
Qed.

(** C4 (as amended). For every readable file of at most [INT_MAX] lines and
    every search term, the line numbers [searchInFile] collects are 1-indexed,
    strictly increasing, and exactly the numbers of the lines that contain the
    term as a literal substring, each of them once. *)
Theorem scanner_line_numbers (searchTerm stream : string) :
  Z.of_nat (length (file_lines stream)) ≤ INT_MAX →
  line_numbers_of searchTerm stream (scan_loop searchTerm stream 0 []).2.
Proof.
  intros Hmax. rewrite matchingLines_numbers.
  destruct (numbers_from_spec searchTerm (file_lines stream) 0) as [Hin Hsorted];
    [lia | lia |].
  split; [|done]. intros k. rewrite Hin.
  replace (k - 0 - 1) with (k - 1) by lia.
  split; intros (Hk & line & Hline & Hfound); (split; [lia|]); exists line;
    (split; [done|]); by apply found_substring.
Qed.

Lemma scanner_line_numbers_witness :
  line_numbers_of "aa"
    ("xaaa" +:+ endl +:+ "b" +:+ endl +:+ "aaaa")
    (scan_loop "aa" ("xaaa" +:+ endl +:+ "b" +:+ endl +:+ "aaaa") 0 []).2.
Proof.
  apply (scanner_line_numbers "aa" ("xaaa" +:+ endl +:+ "b" +:+ endl +:+ "aaaa")).
  vm_compute. discriminate.
Defined.

(** A line with several, overlapping occurrences is listed once. *)
Example overlapping_occurrences :
  (scan_loop "aa" ("xaaa" +:+ endl +:+ "b" +:+ endl +:+ "aaaa") 0 []).2 = [1; 3].
Proof. vm_compute. reflexivity. Qed.

(** C4 fails as stated: in a file of [2 ^ 31] lines that all contain the
    term, the last line is listed under the number [INT_MIN]. *)
Lemma scanner_line_numbers_overflow :
  ¬ line_numbers_of "a" (lines_of_a (2 ^ 31))
      (scan_loop "a" (lines_of_a (2 ^ 31)) 0 []).2.
Proof.
  intros [Hin _].
  pose proof (lines_of_a_last "a" eq_refl) as Hlast.
  apply Hin in Hlast as [Hpos _].
  revert Hpos. vm_compute. intros H; apply H; reflexivity.
Qed.

(** C9 (as amended). With the empty search term [find] succeeds at position
    0 on every line, so the scanner lists every line of a readable file of
    at most [INT_MAX] lines: the list holds the numbers [1, 2, ...] of all
    its lines, and a file with at least one line is appended to the results
    with that list. *)
Theorem empty_term_matches_every_line (stream filepath : string)
    (results : list (string * list Z)) :
  Z.of_nat (length (file_lines stream)) ≤ INT_MAX →
  (∀ line, find line "" = Some 0%nat)
  ∧ (scan_loop "" stream 0 []).2 = Z.of_nat <$> seq 1 (length (file_lines stream))
  ∧ (stream ≠ "" →
     searchInFile (Some stream) filepath "" results
     = (true, results ++ [(filepath, Z.of_nat <$> seq 1 (length (file_lines stream)))])).
Proof.
  intros Hmax.
  assert (Hnum : (scan_loop "" stream 0 []).2
                 = Z.of_nat <$> seq 1 (length (file_lines stream))).
  { rewrite matchingLines_numbers, numbers_from_empty_term.
    apply map_ext_in. intros i Hi. apply in_seq in Hi.
    rewrite Z.add_0_l. apply wrap_int_id.
    unfold is_int, INT_MIN, INT_MAX in *. lia. }
  split; [by intros [|c line]|]. split; [done|].
  intros Hne. unfold searchInFile. cbv zeta. rewrite Hnum.
  apply file_lines_nonempty in Hne.
  destruct (file_lines stream) as [|l ls]; [done|]. done.
Qed.

Lemma empty_term_matches_every_line_witness :
  (scan_loop "" ("x" +:+ endl +:+ endl +:+ "y") 0 []).2 = [1; 2; 3].
Proof.
  exact (proj1 (proj2 (empty_term_matches_every_line
                         ("x" +:+ endl +:+ endl +:+ "y") "f" []
                         ltac:(vm_compute; discriminate)))).
Defined.

(** C9 fails as stated: with the empty term, the last line of a file of
    [2 ^ 31] lines is listed under the number [INT_MIN], which is the number
    of none of its lines. *)
Lemma empty_term_overflow :
  (scan_loop "" (lines_of_a (2 ^ 31)) 0 []).2
  ≠ Z.of_nat <$> seq 1 (length (file_lines (lines_of_a (2 ^ 31)))).
Proof.
  intros Heq. pose proof (lines_of_a_last "" eq_refl) as Hlast.
  rewrite Heq in Hlast. apply list_elem_of_fmap in Hlast as (i & Hi & _).
  unfold INT_MIN in Hi. lia.
Qed.

(** The empty term on a three-line file. *)
Example empty_term_example :
  searchInFile (Some ("x" +:+ endl +:+ endl +:+ "y")) "f" "" []
  = (true, [("f", [1; 2; 3])]).
Proof. vm_compute. reflexivity. Qed.




(** ** The thread pool *)

Section PoolFacts.
Context {Task Shared : Type}.
Variable run_task : Task → Shared → Shared * option Task.
Variable size : Task → nat.


Lemma omap_insert {A B} (f : A → option B) (l : list A) (i : nat) (x y : A) :
  l !! i = Some x →
  omap f (<[i := y]> l) ++ option_list (f x) ≡ₚ omap f l ++ option_list (f y).
Proof.
  intros Hi. rewrite insert_take_drop by (by eapply lookup_lt_Some).
  rewrite <- (take_drop_middle l i x Hi) at 3.
  rewrite !omap_app. cbn.
  destruct (f x) as [u|], (f y) as [v|]; cbn; solve_Permutation.
Qed.

Lemma sum_list_insert {A} (f : A → nat) (l : list A) (i : nat) (x y : A) :
  l !! i = Some x →
  (sum_list_with f (<[i := y]> l) + f x = sum_list_with f l + f y)%nat.
Proof.
  intros Hi. rewrite insert_take_drop by (by eapply lookup_lt_Some).
  rewrite <- (take_drop_middle l i x Hi) at 3.
  rewrite !sum_list_with_app. simpl. lia.
Qed.

Lemma submitted_snoc (es : list (pool_event Task)) (e : pool_event Task) :
  submitted (es ++ [e])
  = submitted es ++ match e with Submit t => [t] | _ => [] end.
Proof. unfold submitted. rewrite omap_app. by destruct e. Qed.

Lemma started_snoc (es : list (pool_event Task)) (e : pool_event Task) :
  started (es ++ [e])
  = started es ++ match e with Work (Popped _ t) => [t] | _ => [] end.
Proof. unfold started. rewrite omap_app. by destruct e as [| |[]]. Qed.

Lemma completed_snoc (es : list (pool_event Task)) (e : pool_event Task) :
  completed (es ++ [e])
  = completed es ++ match e with Work (Finished _ t) => [t] | _ => [] end.
Proof. unfold completed. rewrite omap_app. by destruct e as [| |[]]. Qed.

Lemma pool_inv_construct threads : pool_inv (Task:=Task) threads [] (construct threads).
Proof.
  split; simpl; [by rewrite length_replicate | done | | ].
  - unfold in_flight. simpl. induction threads; simpl; auto.
  - intros [i Hi]. apply lookup_replicate in Hi as [? _]. done.
Qed.

Lemma pool_inv_step threads es p m e p' m' :
  pool_inv threads es p → pool_step run_task (p, m) e (p', m') → pool_inv threads (es ++ [e]) p'.
Proof.
  intros [Hn Hq Hf Hx] Hstep.
  inversion Hstep as [? ? t Hstop | ? ? Hstop | ? ? ev ? ? Hw]; subst.
  - split; simpl; rewrite ?submitted_snoc, ?started_snoc, ?completed_snoc, ?app_nil_r;
      auto.
    + by rewrite Hq, app_assoc.
    + intros Hex. apply Hx in Hex as [? _]. congruence.
  - split; simpl; rewrite ?submitted_snoc, ?started_snoc, ?completed_snoc, ?app_nil_r;
      auto.
    intros Hex. apply Hx in Hex as [? _]. congruence.
  - inversion Hw as [? ? i t q Hi Ht | ? ? i Hi Hs Ht
                    | ? ? i t c ? c' Hi Hrun | ? ? i t c ? Hi Hrun]; subst;
      split; simpl;
      rewrite ?submitted_snoc, ?started_snoc, ?completed_snoc, ?app_nil_r,
        ?length_insert; auto.
    + rewrite Hq, Ht. by rewrite <- app_assoc.
    + rewrite Hf. unfold in_flight. simpl.
      pose proof (omap_insert (running (Task:=Task)) _ i Idle (Running t t) Hi) as Hp.
      simpl in Hp. rewrite app_nil_r in Hp. rewrite Hp. by rewrite app_assoc.
    + intros [j Hj]. destruct (decide (i = j)) as [->|Hne].
      * rewrite list_lookup_insert_eq in Hj by (by eapply lookup_lt_Some). done.
      * rewrite list_lookup_insert_ne in Hj by done.
        destruct Hx as [_ Hnil]; [eauto|]. congruence.
    + rewrite Hf. unfold in_flight. simpl.
      pose proof (omap_insert (running (Task:=Task)) _ i Idle Exited Hi) as Hp.
      simpl in Hp. rewrite !app_nil_r in Hp. by rewrite Hp.
    + rewrite Hf. unfold in_flight. simpl.
      pose proof (omap_insert (running (Task:=Task)) _ i (Running t c) (Running t c') Hi) as Hp.
      simpl in Hp. apply Permutation_app_inv_r in Hp. by rewrite Hp.
    + intros [j Hj]. destruct (decide (i = j)) as [->|Hne].
      * rewrite list_lookup_insert_eq in Hj by (by eapply lookup_lt_Some). done.
      * rewrite list_lookup_insert_ne in Hj by done. eauto.
    + rewrite Hf. unfold in_flight. simpl.
      pose proof (omap_insert (running (Task:=Task)) _ i (Running t c) Idle Hi) as Hp.
      simpl in Hp. rewrite app_nil_r in Hp. rewrite <- Hp. solve_Permutation.
    + intros [j Hj]. destruct (decide (i = j)) as [->|Hne].
      * rewrite list_lookup_insert_eq in Hj by (by eapply lookup_lt_Some). done.
      * rewrite list_lookup_insert_ne in Hj by done. eauto.
Qed.

Lemma pool_inv_run threads m0 es p m :
  pool_run run_task (construct threads, m0) es (p, m) → pool_inv threads es p.
Proof.
  intros Hrun. remember (construct threads, m0) as s0 eqn:Hs0.
  remember (p, m) as s eqn:Hs. revert p m Hs.
  induction Hrun as [s|s es [p' m'] e s'' Hrun IH Hstep]; intros p m Hs; subst.
  - injection Hs as <- <-. apply pool_inv_construct.
  - eapply pool_inv_step; eauto.
Qed.

Lemma worker_exit_guard p m i s' :
  worker_step run_task (p, m) (Left i) s' → stop p = true ∧ tasks p = [].
Proof. by inversion 1. Qed.

Lemma joined_in_flight (p : ThreadPool Task) : joined p → in_flight p = [].
Proof.
  unfold joined, in_flight. induction 1 as [|w ws Hw _ IH]; [done|].
  subst w. simpl. done.
Qed.

Lemma joined_drained threads es (p : ThreadPool Task) :
  (0 < threads)%nat → pool_inv threads es p → joined p →
  tasks p = [] ∧ submitted es ≡ₚ completed es.
Proof.
  intros Hpos [Hn Hq Hf Hx] Hj.
  destruct (workers p) as [|w ws] eqn:Hws; [simpl in Hn; lia|].
  assert (w = Exited) as -> by (unfold joined in Hj; rewrite Hws in Hj; by inversion Hj).
  destruct Hx as [_ Hnil]; [by exists 0%nat|].
  split; [done|].
  rewrite Hq, Hf, Hnil, (joined_in_flight p Hj). by rewrite !app_nil_r.
Qed.

Lemma worker_can_step (p : ThreadPool Task) m i w :
  workers p !! i = Some w → w ≠ Exited →
  tasks p ≠ [] ∨ stop p = true ∨ (∃ t c, w = Running t c) →
  ∃ e s', worker_step run_task (p, m) e s'.
Proof.
  intros Hi Hw Hen. destruct w as [|t c|]; [| |done].
  - destruct (tasks p) as [|t q] eqn:Ht.
    + destruct Hen as [?|[Hs|(? & ? & ?)]]; [done| |done].
      eexists _, _. by eapply worker_exit.
    + eexists _, _. by eapply worker_pop.
  - destruct (run_task c m) as [m' [c'|]] eqn:Hrun; eexists _, _.
    + by eapply worker_run.
    + by eapply worker_return.
Qed.

Lemma in_flight_running (p : ThreadPool Task) :
  in_flight p ≠ [] → ∃ i t c, workers p !! i = Some (Running t c).
Proof.
  unfold in_flight. induction (workers p) as [|w ws IH]; [done|].
  destruct w as [|t c|]; simpl; intros Hne.
  - destruct (IH Hne) as (i & t & c & Hi). by exists (S i), t, c.
  - by exists 0%nat, t, c.
  - destruct (IH Hne) as (i & t & c & Hi). by exists (S i), t, c.
Qed.

Lemma pool_progress threads es (p : ThreadPool Task) m :
  (0 < threads)%nat → pool_inv threads es p →
  tasks p ≠ [] ∨ in_flight p ≠ []
  ∨ (stop p = true ∧ ∃ i w, workers p !! i = Some w ∧ w ≠ Exited) →
  ∃ e s', worker_step run_task (p, m) e s'.
Proof.
  intros Hpos [Hn Hq Hf Hx] [Hq' | [Hfl | (Hs & i & w & Hi & Hw)]].
  - destruct (workers p) as [|w ws] eqn:Hws; [simpl in Hn; lia|].
    apply (worker_can_step p m 0%nat w); [by rewrite Hws | | by left].
    intros ->. destruct Hx as [_ ?]; [by exists 0%nat | done].
  - apply in_flight_running in Hfl as (i & t & c & Hi).
    apply (worker_can_step p m i (Running t c)); eauto.
  - apply (worker_can_step p m i w); auto.
Qed.

Hypothesis run_task_size :
  ∀ c m m' c', run_task c m = (m', Some c') → (size c' < size c)%nat.

Lemma worker_step_work_left p m e p' m' :
  worker_step run_task (p, m) e (p', m') → (work_left size p' < work_left size p)%nat.
Proof.
  inversion 1 as [? ? i t q Hi Ht | ? ? i Hi Hs Ht
                 | ? ? i t c ? c' Hi Hrun | ? ? i t c ? Hi Hrun]; subst;
    unfold work_left; simpl.
  - rewrite Ht. simpl.
    pose proof (sum_list_insert (worker_left size) _ i Idle (Running t t) Hi) as Hsum.
    simpl in Hsum. lia.
  - pose proof (sum_list_insert (worker_left size) _ i Idle Exited Hi) as Hsum.
    simpl in Hsum. lia.
  - pose proof (sum_list_insert (worker_left size) _ i _ (Running t c') Hi) as Hsum.
    simpl in Hsum. apply run_task_size in Hrun. lia.
  - pose proof (sum_list_insert (worker_left size) _ i _ Idle Hi) as Hsum.
    simpl in Hsum. lia.
Qed.

Lemma pool_work_bounded s es s' :
  pool_run run_task s es s' → only_work es →
  (length es + work_left size s'.1 ≤ work_left size s.1)%nat.
Proof.
  induction 1 as [s|s es [p' m'] e [p'' m''] Hrun IH Hstep]; intros Hes; [simpl; lia|].
  apply Forall_app in Hes as [Hes He]. specialize (IH Hes).
  apply Forall_cons in He as [He _].
  inversion Hstep; subst; try done.
  match goal with Hw : worker_step _ _ _ _ |- _ =>
    apply worker_step_work_left in Hw; rewrite length_app; simpl in *; lia
  end.
Qed.

End PoolFacts.

(** C2 (as amended). In a pool built with at least one worker, whatever
    the order in which tasks are submitted and workers run: every submitted
    task is either still queued or was popped exactly once, and every popped
    task either has returned or is inside exactly one worker; a worker
    leaves its loop only with [stop] set and the queue empty; when all the
    workers are joined the queue is empty and the tasks that returned are
    exactly the submitted ones; while a task is queued or running, or while
    [stop] is set and a worker has not left, some worker can take a step;
    and, for tasks that each take a bounded number of steps, the workers
    take a bounded number of steps once nothing more is submitted. *)
Theorem pool_runs_every_task_once {Task Shared : Type}
    (run_task : Task → Shared → Shared * option Task) (threads : nat) (m0 : Shared)
    (es : list (pool_event Task)) (p : ThreadPool Task) (m : Shared) :
  (0 < threads)%nat →
  pool_run run_task (construct threads, m0) es (p, m) →
  submitted es ≡ₚ started es ++ tasks p
  ∧ started es ≡ₚ completed es ++ in_flight p
  ∧ (∀ i s', worker_step run_task (p, m) (Left i) s' → stop p = true ∧ tasks p = [])
  ∧ (joined p → tasks p = [] ∧ submitted es ≡ₚ completed es)
  ∧ (tasks p ≠ [] ∨ in_flight p ≠ []
     ∨ (stop p = true ∧ ∃ i w, workers p !! i = Some w ∧ w ≠ Exited) →
     ∃ e s', worker_step run_task (p, m) e s')
  ∧ (∀ size : Task → nat,
       (∀ c m m' c', run_task c m = (m', Some c') → (size c' < size c)%nat) →
       ∀ es' s', pool_run run_task (p, m) es' s' → only_work es' →
         (length es' ≤ work_left size p)%nat).
Proof.
  intros Hpos Hrun. pose proof (pool_inv_run _ _ _ _ _ _ Hrun) as Hinv.
  split; [apply Hinv|]. split; [apply Hinv|].
  split; [intros i s'; apply worker_exit_guard|].
  split; [by eapply joined_drained|].
  split; [by eapply pool_progress|].
  intros size Hsize es' s' Hrun' Hes'.
  pose proof (pool_work_bounded _ size Hsize _ _ _ Hrun' Hes') as Hb. simpl in Hb. lia.
Qed.

Lemma run_task_size (searchTerm : string) (c : task) (m m' : memory) (c' : task) :
  run_task searchTerm c m = (m', Some c') → (task_size c' < task_size c)%nat.
Proof. destruct c; simpl; intros [= <- <-]; simpl; lia. Qed.

Lemma pool_runs_every_task_once_witness :
  let t := Scan (Entry "d/a" (File (Some "foo"))) in
  let m := Memory [] 0 1 [] in
  submitted [Submit t; Work (Popped 0 t)] ≡ₚ started [Submit t; Work (Popped 0 t)] ++ []
  ∧ started [Submit t; Work (Popped 0 t)]
    ≡ₚ completed [Submit t; Work (Popped 0 t)] ++ in_flight (Pool [Running t t] [] false).
Proof.
  intros t m.
  assert (Hrun : pool_run (run_task "foo") (construct 1, m)
                   [Submit t; Work (Popped 0 t)] (Pool [Running t t] [] false, m)).
  { apply (pool_run_step _ _ [Submit t] (Pool [Idle] [t] false, m)).
    - apply (pool_run_step _ _ [] (construct 1, m)); [apply pool_run_nil|].
      by apply (pool_submit _ (construct 1)).
    - apply pool_work. by apply (worker_pop _ (Pool [Idle] [t] false) m 0 t []). }
  pose proof (pool_runs_every_task_once (run_task "foo") 1 m _ _ m
                (Nat.lt_0_succ 0) Hrun)
    as (H1 & H2 & _).
  exact (conj H1 H2).
Defined.

(** C2 fails as stated: a pool built with no worker is destroyed with a
    submitted task still in its queue; every join has returned (there is
    none) and the task never ran. *)
Lemma pool_without_workers_drops_tasks :
  let t := Scan (Entry "d/a" (File (Some "foo"))) in
  let m := Memory [] 0 1 [] in
  pool_run (run_task "foo") (construct 0, m) [Submit t; Destroy] (Pool [] [t] true, m)
  ∧ joined (Pool (Task:=task) [] [t] true)
  ∧ tasks (Pool (Task:=task) [] [t] true) = [t]
  ∧ submitted [Submit t; Destroy] = [t]
  ∧ completed [Submit t; Destroy] = [].
Proof.
  intros t m. split; [|by repeat split; try constructor].
  apply (pool_run_step _ _ [Submit t] (Pool [] [t] false, m)).
  - apply (pool_run_step _ _ [] (construct 0, m)); [apply pool_run_nil|].
    by apply (pool_submit _ (construct 0)).
  - by apply (pool_destroy _ (Pool [] [t] false)).
Qed.

(** ** The search engine *)

Lemma searchInFile_result (searchTerm : string) (e : directory_entry)
    (rs : list (string * list Z)) :
  (searchInFile (ifstream e) (path e) searchTerm rs).2
  = rs ++ option_list (result_of searchTerm e).
Proof.
  unfold searchInFile, result_of. destruct (ifstream e) as [stream|]; simpl.
  - destruct (scan_loop searchTerm stream 0 []).2; simpl; by rewrite ?app_nil_r.
  - by rewrite app_nil_r.
Qed.

Lemma regular_cons (e : directory_entry) (rest : list directory_entry) :
  regular (e :: rest)
  = match is_regular_file e with
    | Some true => e :: regular rest
    | _ => regular rest
    end.
Proof.
  unfold regular. rewrite filter_cons.
  destruct (is_regular_file e) as [[]|]; by destruct (decide _).
Qed.

Lemma iterator_walk (root : option node) (rootPath : string)
    (entries : list directory_entry) :
  recursive_directory_iterator root rootPath = Some entries →
  ∃ es, root = Some (Dir es) ∧ listable (Dir es) = true
        ∧ entries = walk rootPath (Dir es).
Proof.
  unfold recursive_directory_iterator. destruct root as [[stream|es| | |]|]; try done.
  destruct (listable (Dir es)) eqn:Hl; [|done]. intros [= <-]. by exists es.
Qed.

Lemma count_files_status (entries : list directory_entry) (n total : Z) :
  count_files entries n = Some total → Forall has_status entries.
Proof.
  revert n; induction entries as [|e rest IH]; intros n; simpl; [constructor|].
  unfold has_status. destruct (is_regular_file e) as [[]|] eqn:He; try done;
    intros Hc; (constructor; [by rewrite He | by eapply IH]).
Qed.

Lemma count_files_throws (entries : list directory_entry) (n : Z) :
  ¬ Forall has_status entries → count_files entries n = None.
Proof.
  intros Hnot. destruct (count_files entries n) as [total|] eqn:Hc; [|done].
  by apply count_files_status in Hc.
Qed.

Lemma count_files_is_Some (entries : list directory_entry) (n : Z) :
  Forall has_status entries → is_Some (count_files entries n).
Proof.
  intros Hst. revert n; induction Hst as [|e rest He _ IH]; intros n; simpl; [done|].
  unfold has_status in He. by destruct (is_regular_file e) as [[]|].
Qed.

Lemma has_status_dec (entries : list directory_entry) :
  Forall has_status entries ∨ ¬ Forall has_status entries.
Proof.
  induction entries as [|e rest [IH|IH]].
  - left. constructor.
  - destruct (is_regular_file e) as [b|] eqn:He.
    + left. constructor; [unfold has_status; by rewrite He | done].
    + right. intros H. apply Forall_cons in H as [H _]. by apply H.
  - right. intros H. by apply Forall_cons in H as [_ H].
Qed.

Lemma count_files_wrap (entries : list directory_entry) (n : Z) :
  Forall has_status entries →
  count_files entries (wrap_int n)
  = Some (wrap_int (n + Z.of_nat (length (regular entries)))).
Proof.
  intros Hst. revert n; induction Hst as [|e rest He _ IH]; intros n.
  - simpl. do 2 f_equal. lia.
  - rewrite regular_cons. simpl. unfold has_status in He.
    destruct (is_regular_file e) as [[]|]; [| |done].
    + rewrite int_incr_wrap, IH. do 2 f_equal. simpl length. lia.
    + apply IH.
Qed.

Lemma report_driver_items (rs : list (string * list Z)) :
  driver_items (report rs) = report rs ∧ progress_items (report rs) = [].
Proof.
  assert (H : Forall (λ o, is_progress o = false) (report rs)).
  { unfold report. apply Forall_app. split; [by repeat constructor|].
    destruct rs as [|r rs]; [constructor|]. constructor; [done|].
    apply Forall_flat_map, Forall_forall. intros ? _. by repeat constructor. }
  unfold driver_items, progress_items. induction H as [|o os Ho _ [IH1 IH2]]; [done|].
  rewrite filter_cons_True, filter_cons_False by congruence. by rewrite IH1, IH2.
Qed.

Lemma pool_events_snoc (ls : list label) (l : label) :
  pool_events (ls ++ [l]) = pool_events ls ++ option_list (pool_event_of l).
Proof. unfold pool_events. rewrite omap_app. simpl. by destruct (pool_event_of l). Qed.

Lemma replicate_idle (n : nat) :
  omap scanned (replicate n (Idle (Task:=task))) = []
  ∧ sum_list_with counted (replicate n (Idle (Task:=task))) = 0%nat
  ∧ ∀ total, Forall (worker_ok total) (replicate n (Idle (Task:=task))).
Proof.
  induction n as [|n (IH1 & IH2 & IH3)]; simpl; [by repeat split|].
  repeat split; try done. intros total. constructor; [done | apply IH3].
Qed.

Section SearchFacts.
Variable root : option node.
Variables rootPath searchTerm : string.
Variable threads : nat.

Local Abbreviation sstep := (step root rootPath searchTerm threads).
Local Abbreviation srun := (run root rootPath searchTerm threads).

Lemma queued_is_scan entries ls s t :
  search_inv searchTerm threads entries ls s →
  t ∈ tasks (pool s) → ∃ e, t = Scan e ∧ is_regular_file e = Some true.
Proof.
  intros Hinv Ht.
  assert (Hsub : t ∈ submitted (pool_events ls)).
  { rewrite (inv_queue _ _ _ (si_pool _ _ _ _ _ Hinv)). apply elem_of_app. by right. }
  assert (Hin : t ∈ Scan <$> regular entries).
  { rewrite (si_dispatch _ _ _ _ _ Hinv). apply elem_of_app. by left. }
  apply list_elem_of_fmap in Hin as (e & -> & He). exists e. split; [done|].
  unfold regular in He. by apply list_elem_of_filter in He as [? _].
Qed.

Lemma search_inv_count entries total :
  count_files entries 0 = Some total →
  search_inv searchTerm threads entries [LCount]
    (System (Dispatching entries) (construct threads) (Memory [] 0 total [])).
Proof.
  intros Hcount. pose proof (count_files_status _ _ _ Hcount) as Hst.
  change 0 with (wrap_int 0) in Hcount at 1.
  rewrite count_files_wrap in Hcount by done. injection Hcount as <-.
  destruct (replicate_idle threads) as (Hs & Hc & Hok).
  split; simpl; rewrite ?Hs, ?Hc.
  - apply pool_inv_construct.
  - done.
  - done.
  - apply Hok.
  - done.
  - done.
  - done.
  - done.
  - constructor.
  - done.
  - by exists [].
  - done.
  - done.
Qed.

Lemma joined_no_step (p : ThreadPool task) m e s' :
  joined p → ¬ worker_step (run_task searchTerm) (p, m) e s'.
Proof.
  intros Hj Hstep. unfold joined in Hj.
  inversion Hstep; subst;
    match goal with
    | Hi : workers p !! _ = Some _ |- _ =>
        by apply (Forall_lookup_1 _ _ _ _ Hj) in Hi
    end.
Qed.

Lemma search_inv_worker entries ls c p m e p' m' :
  search_inv searchTerm threads entries ls (System c p m) →
  worker_step (run_task searchTerm) (p, m) e (p', m') →
  search_inv searchTerm threads entries (ls ++ [LWorker e]) (System c p' m').
Proof.
  intros Hinv Hstep.
  pose proof (pool_inv_step (run_task searchTerm) _ _ _ _ _ _ _
                (si_pool _ _ _ _ _ Hinv) (pool_work _ _ _ _ _ _ Hstep)) as Hpool.
  pose proof Hinv as Hinv0.
  destruct Hinv as [_ Hd Hs Hw Hr Hp Ht Hj Hpr Hpc Hrep Hst Hsuf]. simpl in *.
  assert (Hev : pool_events (ls ++ [LWorker e]) = pool_events ls ++ [Work e])
    by apply pool_events_snoc.
  assert (Hjn : c = Returned → joined p').
  { intros Hc. specialize (Hj Hc). by apply joined_no_step in Hstep. }
  inversion Hstep as [? ? i t q Hi Hq | ? ? i Hi Hstop Hq
                     | ? ? i t c0 ? c' Hi Hrun | ? ? i t c0 ? Hi Hrun]; subst.
  - (* pop *)
    pose proof (omap_insert scanned _ i _ (Running t t) Hi) as Hsc.
    pose proof (sum_list_insert counted _ i _ (Running t t) Hi) as Hcn.
    assert (scanned (Running t t) = None ∧ counted (Running t t) = 0%nat
            ∧ worker_ok (total_files m') (Running t t)) as (Hsn & Hc0 & Hok).
    { destruct (queued_is_scan entries ls (System c p m') t) as (e0 & -> & He0).
      - done.
      - simpl. rewrite Hq. by left.
      - repeat split. exists e0. eauto. }
    rewrite Hsn, Hc0 in *. simpl in Hsc, Hcn. rewrite !app_nil_r in Hsc.
    split; rewrite ?Hev, ?submitted_snoc, ?completed_snoc, ?app_nil_r; simpl;
      rewrite ?Hsc; auto.
    + by apply Forall_insert.
    + rewrite Hp. do 2 f_equal. lia.
  - (* exit *)
    pose proof (omap_insert scanned _ i _ Exited Hi) as Hsc.
    pose proof (sum_list_insert counted _ i _ Exited Hi) as Hcn.
    simpl in Hsc, Hcn. rewrite !app_nil_r in Hsc.
    split; rewrite ?Hev, ?submitted_snoc, ?completed_snoc, ?app_nil_r; simpl;
      rewrite ?Hsc; auto.
    + by apply Forall_insert.
    + rewrite Hp. do 2 f_equal. lia.
  - (* a step inside a task *)
    pose proof (Forall_lookup_1 _ _ _ _ Hw Hi) as (e0 & -> & He0 & Hc0).
    pose proof (omap_insert scanned _ i _ (Running (Scan e0) c') Hi) as Hsc.
    pose proof (sum_list_insert counted _ i _ (Running (Scan e0) c') Hi) as Hcn.
    destruct Hc0 as [-> | [-> | [-> | [num ->]]]]; simpl in Hrun;
      try discriminate Hrun; injection Hrun as <- <-; simpl in *.
    + (* searchInFile *)
      rewrite !app_nil_r in Hsc.
      split; rewrite ?Hev, ?submitted_snoc, ?completed_snoc, ?app_nil_r; simpl; auto.
      * apply Forall_insert; [done|]. exists e0. eauto.
      * rewrite searchInFile_result, Hr, Hsc, !omap_app. cbn.
        destruct (result_of searchTerm e0); simpl; by rewrite ?app_nil_r, ?app_assoc.
      * rewrite Hp. do 2 f_equal. lia.
      * destruct Hrep as (rs & Hrs & Hpre). exists rs. split; [done|].
        rewrite searchInFile_result. by apply prefix_app_r.
    + (* files_processed++ *)
      apply Permutation_app_inv_r in Hsc.
      split; rewrite ?Hev, ?submitted_snoc, ?completed_snoc, ?app_nil_r; simpl;
        rewrite ?Hsc; auto.
      * apply Forall_insert; [done|]. exists e0. eauto 10.
      * rewrite Hp, int_incr_wrap. f_equal. lia.
    + (* the division *)
      apply Permutation_app_inv_r in Hsc.
      split; rewrite ?Hev, ?submitted_snoc, ?completed_snoc, ?app_nil_r; simpl;
        rewrite ?Hsc; auto.
      * apply Forall_insert; [done|]. exists e0. eauto 10.
      * etrans; [apply Hp|]. do 2 f_equal. lia.
  - (* the task returns *)
    pose proof (Forall_lookup_1 _ _ _ _ Hw Hi) as (e0 & -> & He0 & Hc0).
    pose proof (omap_insert scanned _ i _ Idle Hi) as Hsc.
    pose proof (sum_list_insert counted _ i _ Idle Hi) as Hcn.
    destruct Hc0 as [-> | [-> | [-> | [num ->]]]]; simpl in Hrun;
      try discriminate Hrun.
    injection Hrun as <-; simpl in *. rewrite app_nil_r in Hsc.
    split; rewrite ?Hev, ?submitted_snoc, ?completed_snoc, ?app_nil_r; simpl; auto.
    + by apply Forall_insert.
    + rewrite Hr, <- Hsc. apply omap_Permutation. solve_Permutation.
    + rewrite Hp, length_app. simpl. f_equal. lia.
    + apply Forall_app. split; [done|]. constructor; [|done].
      by intros ? ? ? ? [= <- <- <- <-].
    + unfold progress_items in *. rewrite filter_app, !length_app, Hpc. done.
    + destruct Hrep as (rs & Hrs & Hpre). exists rs. split; [|done].
      unfold driver_items in *. rewrite filter_app, Hrs. simpl. by rewrite app_nil_r.
Qed.

Lemma no_worker_no_step (m : memory) e s' :
  ¬ worker_step (run_task searchTerm) (construct 0, m) e s'.
Proof. inversion 1; subst; simpl in *; done. Qed.

Lemma search_inv_driver entries ls s l s' :
  search_inv searchTerm threads entries ls s →
  sstep s l s' →
  control s ≠ Counting →
  search_inv searchTerm threads entries (ls ++ [l]) s'.
Proof.
  intros Hinv Hstep Hc.
  inversion Hstep as [p m entries' total' Hit Hcount | p m Hit
                     | p m e rest He | p m e rest He
                     | p m Hwait | p m | p m Hjoin | c p m ev p' m' Hw];
    subst; try done; try (by eapply search_inv_worker).
  - (* enqueue *)
    assert (Hpool : pool_inv threads (pool_events ls ++ [Submit (Scan e)])
                      (enqueue (Scan e) p)).
    { eapply (pool_inv_step (run_task searchTerm) _ _ _ m _ _ m);
        [apply Hinv | constructor; apply (si_stop _ _ _ _ _ Hinv)]. }
    destruct Hinv as [_ Hd Hs Hw Hr Hp Ht Hj Hpr Hpc Hrep Hst Hsuf]. simpl in *.
    rewrite regular_cons, He in Hd. apply suffix_cons_l in Hsuf.
    split; rewrite ?pool_events_snoc; simpl;
      rewrite ?submitted_snoc, ?completed_snoc, ?app_nil_r; auto; try done.
    rewrite Hd. by rewrite <- app_assoc.
  - (* skip *)
    destruct Hinv as [Hpool Hd Hs Hw Hr Hp Ht Hj Hpr Hpc Hrep Hst Hsuf]. simpl in *.
    rewrite regular_cons, He in Hd. apply suffix_cons_l in Hsuf.
    split; rewrite ?pool_events_snoc; simpl; rewrite ?app_nil_r; auto; try done.
  - (* report *)
    destruct Hinv as [Hpool Hd Hs Hw Hr Hp Ht Hj Hpr Hpc Hrep Hst Hsuf]. simpl in *.
    destruct (report_driver_items (results m)) as [Hrd Hrp].
    split; rewrite ?pool_events_snoc; simpl; rewrite ?app_nil_r; auto; try done.
    all: match goal with
         | |- _ = submitted _ => by rewrite app_nil_r in Hd
         | |- Forall _ (_ ++ _) =>
             apply Forall_app; split; [done|];
             apply Forall_forall; intros o Ho a b c d ->;
             rewrite <- Hrd in Ho; unfold driver_items in Ho;
             by apply list_elem_of_filter in Ho as [? _]
         | |- length (progress_items _) = _ =>
             unfold progress_items in *; by rewrite filter_app, length_app, Hrp, Hpc
         | |- ∃ rs, _ =>
             exists (results m); destruct Hrep as (rs & Hrs & _); split; [|done];
             unfold driver_items in *; by rewrite filter_app, Hrs, Hrd
         end.
  - (* stop *)
    assert (Hpool : pool_inv threads (pool_events ls ++ [Destroy]) (set_stop p)).
    { eapply (pool_inv_step (run_task searchTerm) _ _ _ m _ _ m);
        [apply Hinv | constructor; apply (si_stop _ _ _ _ _ Hinv)]. }
    destruct Hinv as [_ Hd Hs Hw Hr Hp Ht Hj Hpr Hpc Hrep Hst Hsuf]. simpl in *.
    rewrite app_nil_r in Hd.
    split; rewrite ?pool_events_snoc; simpl;
      rewrite ?submitted_snoc, ?completed_snoc, ?app_nil_r; auto; try done.
  - (* join *)
    destruct Hinv as [Hpool Hd Hs Hw Hr Hp Ht Hj Hpr Hpc Hrep Hst Hsuf]. simpl in *.
    rewrite app_nil_r in Hd.
    split; rewrite ?pool_events_snoc; simpl; rewrite ?app_nil_r; auto; try done.
Qed.

Lemma inv_step ls s l s' :
  inv root rootPath searchTerm threads ls s → sstep s l s' →
  inv root rootPath searchTerm threads (ls ++ [l]) s'.
Proof.
  intros Hinv Hstep. unfold inv in *.
  destruct (control s) eqn:Hc.
  - destruct Hinv as [-> ->].
    inversion Hstep as [p m entries' total' Hit Hcount | p m Hit
                       | | | | | | c p m ev p' m' Hw]; subst.
    + simpl. exists entries'. split; [done|]. by apply search_inv_count.
    + done.
    + by apply no_worker_no_step in Hw.
  - destruct Hinv as (entries & Hit & Hinv).
    assert (Hinv' : search_inv searchTerm threads entries (ls ++ [l]) s')
      by (eapply search_inv_driver; eauto; congruence).
    inversion Hstep; subst; simpl in *; subst; try done; eauto.
  - destruct Hinv as (entries & Hit & Hinv).
    assert (Hinv' : search_inv searchTerm threads entries (ls ++ [l]) s')
      by (eapply search_inv_driver; eauto; congruence).
    inversion Hstep; subst; simpl in *; subst; try done; eauto.
  - destruct Hinv as (entries & Hit & Hinv).
    assert (Hinv' : search_inv searchTerm threads entries (ls ++ [l]) s')
      by (eapply search_inv_driver; eauto; congruence).
    inversion Hstep; subst; simpl in *; subst; try done; eauto.
  - destruct Hinv as (entries & Hit & Hinv).
    assert (Hinv' : search_inv searchTerm threads entries (ls ++ [l]) s')
      by (eapply search_inv_driver; eauto; congruence).
    inversion Hstep; subst; simpl in *; subst; try done; eauto.
  - destruct Hinv as (-> & -> & Hit).
    inversion Hstep as [| | | | | | | c p m ev p' m' Hw]; subst.
    by apply no_worker_no_step in Hw.
Qed.

Lemma counted_in_flight (ws : list (worker task)) :
  (sum_list_with counted ws ≤ length (omap running ws))%nat.
Proof.
  induction ws as [|w ws IH]; csimpl; [lia|].
  destruct w as [|t [] |]; csimpl; lia.
Qed.

Lemma all_counted_scanned (ws : list (worker task)) :
  (length (omap running ws) ≤ sum_list_with counted ws)%nat →
  omap scanned ws = omap running ws
  ∧ ∀ i t c, ws !! i = Some (Running t c) → c = Divide ∨ ∃ num den, c = Output num den.
Proof.
  induction ws as [|w ws IH]; csimpl; intros Hle; [done|].
  pose proof (counted_in_flight ws) as Hws.
  destruct w as [|t c|]; csimpl in *.
  - destruct IH as [IH1 IH2]; [lia|]. split; [done|]. intros [|i] ? ? ?; csimpl in *; eauto.
    done.
  - destruct c; csimpl in *; try lia;
      (destruct IH as [IH1 IH2]; [lia|]; split; [by rewrite IH1|]);
      intros [|i] ? ? Hi; csimpl in *; eauto; injection Hi as <- <-; eauto.
  - destruct IH as [IH1 IH2]; [lia|]. split; [done|]. intros [|i] ? ? ?; csimpl in *; eauto.
    done.
Qed.

Lemma scanned_in_flight (ws : list (worker task)) :
  (length (omap scanned ws) ≤ length (omap running ws))%nat.
Proof.
  induction ws as [|w ws IH]; csimpl; [lia|].
  destruct w as [|t [] |]; csimpl; lia.
Qed.

Lemma counted_all (ws : list (worker task)) :
  (∀ i t c, ws !! i = Some (Running t c) → c = Divide ∨ ∃ num den, c = Output num den) →
  sum_list_with counted ws = length (omap running ws).
Proof.
  induction ws as [|w ws IH]; csimpl; intros Hall; [done|].
  rewrite IH by (intros i; apply (Hall (S i))).
  destruct w as [|t c|]; csimpl; try done.
  destruct (Hall 0%nat t c eq_refl) as [-> | (? & ? & ->)]; done.
Qed.

Lemma length_omap_le {A B} (f : A → option B) (l : list A) :
  (length (omap f l) ≤ length l)%nat.
Proof. induction l as [|x l IH]; csimpl; [lia|]. destruct (f x); csimpl; lia. Qed.

Lemma omap_fmap {A B C} (f : B → option C) (g : A → B) (l : list A) :
  omap f (g <$> l) = omap (λ x, f (g x)) l.
Proof. induction l as [|x l IH]; csimpl; [done|]. by rewrite IH. Qed.

(** Where every regular file is: not yet visited, queued, inside a worker,
    or done. *)
Lemma search_inv_counts entries ls s :
  search_inv searchTerm threads entries ls s →
  (length (regular entries)
   = length (regular (rest_of (control s))) + length (tasks (pool s))
     + length (in_flight (pool s)) + length (completed (pool_events ls)))%nat.
Proof.
  intros Hinv.
  pose proof (f_equal length (si_dispatch _ _ _ _ _ Hinv)) as Hd.
  pose proof (Permutation_length (inv_queue _ _ _ (si_pool _ _ _ _ _ Hinv))) as Hq.
  pose proof (Permutation_length (inv_flight _ _ _ (si_pool _ _ _ _ _ Hinv))) as Hf.
  rewrite length_app, !length_fmap in Hd. rewrite length_app in Hq, Hf. lia.
Qed.

Lemma inv_run ls s :
  srun initial ls s → inv root rootPath searchTerm threads ls s.
Proof.
  remember initial as s0 eqn:Hs0.
  induction 1 as [s|s ls s' l s'' Hrun IH Hstep]; subst.
  - by split.
  - eapply inv_step; eauto.
Qed.

Lemma inv_after_count entries ls s :
  recursive_directory_iterator root rootPath = Some entries →
  Forall has_status entries →
  srun initial ls s → control s ≠ Counting →
  search_inv searchTerm threads entries ls s.
Proof.
  intros Hit Hst Hrun Hc. apply inv_run in Hrun. unfold inv in Hrun.
  destruct (control s); try done;
    try (destruct Hrun as (entries' & Hit' & Hinv); congruence).
  destruct Hrun as (_ & _ & Hthrows). rewrite Hit in Hthrows. simpl in Hthrows.
  change 0 with (wrap_int 0) in Hthrows at 1.
  by rewrite count_files_wrap in Hthrows.
Qed.

(** When [fs::is_regular_file] throws on an entry, [search] does nothing but
    throw. *)
Lemma inv_throwing entries ls s :
  recursive_directory_iterator root rootPath = Some entries →
  ¬ Forall has_status entries →
  srun initial ls s →
  s = initial ∨ s = System Thrown (construct 0) (Memory [] 0 0 []).
Proof.
  intros Hit Hnot Hrun. apply inv_run in Hrun. unfold inv in Hrun.
  destruct (control s);
    try (destruct Hrun as (entries' & Hit' & Hinv);
         destruct Hnot; replace entries with entries' by congruence;
         apply (si_status _ _ _ _ _ Hinv)).
  - left. apply Hrun.
  - right. apply Hrun.
Qed.

Lemma not_thrown entries ls s :
  recursive_directory_iterator root rootPath = Some entries →
  Forall has_status entries →
  srun initial ls s → control s ≠ Thrown.
Proof.
  intros Hit Hst Hrun Hthrown. apply inv_run in Hrun. unfold inv in Hrun.
  rewrite Hthrown in Hrun.
  destruct Hrun as (_ & _ & Hthrows). rewrite Hit in Hthrows. simpl in Hthrows.
  change 0 with (wrap_int 0) in Hthrows at 1.
  by rewrite count_files_wrap in Hthrows.
Qed.

(** When the first loop throws, [search] does nothing but throw. *)
Lemma throwing_run ls s :
  recursive_directory_iterator root rootPath
    ≫= (λ entries, count_files entries 0) = None →
  srun initial ls s →
  s = initial ∨ s = System Thrown (construct 0) (Memory [] 0 0 []).
Proof.
  intros Hthrows Hrun. apply inv_run in Hrun. unfold inv in Hrun.
  destruct (control s);
    try (destruct Hrun as (entries & Hit & Hinv); rewrite Hit in Hthrows;
         simpl in Hthrows;
         by destruct (count_files_is_Some entries 0 (si_status _ _ _ _ _ Hinv))
              as [? Heq]; rewrite Heq in Hthrows).
  - left. apply Hrun.
  - right. apply Hrun.
Qed.

Lemma rest_has_status entries ls s :
  search_inv searchTerm threads entries ls s →
  Forall has_status (rest_of (control s)).
Proof.
  intros Hinv. destruct (si_rest _ _ _ _ _ Hinv) as [before Heq].
  pose proof (si_status _ _ _ _ _ Hinv) as Hst. rewrite Heq in Hst.
  by apply Forall_app in Hst as [_ Hst].
Qed.

(** A run in which [search] has printed its report holds the step that
    printed it. *)
Lemma reported_label ls s :
  srun initial ls s → has_reported (control s) = true → LReport ∈ ls.
Proof.
  remember initial as s0 eqn:Hs0.
  induction 1 as [s|s ls s' l s'' Hrun IH Hstep]; subst; [done|].
  specialize (IH eq_refl). intros Hrep.
  inversion Hstep; subst; simpl in *; try done;
    apply elem_of_app; (by right; left) || (left; by apply IH).
Qed.

Lemma status_when_running entries ls s :
  recursive_directory_iterator root rootPath = Some entries →
  srun initial ls s → control s ≠ Counting → control s ≠ Thrown →
  Forall has_status entries.
Proof.
  intros Hit Hrun Hc Ht. destruct (has_status_dec entries) as [Hst|Hnot]; [done|].
  by destruct (inv_throwing _ _ _ Hit Hnot Hrun) as [-> | ->].
Qed.

Lemma search_inv_bounded entries ls s :
  Z.of_nat (length (regular entries)) ≤ INT_MAX →
  search_inv searchTerm threads entries ls s →
  total_files (mem s) = Z.of_nat (length (regular entries))
  ∧ files_processed (mem s)
    = Z.of_nat (length (completed (pool_events ls))
                + sum_list_with counted (workers (pool s)))
  ∧ files_processed (mem s) ≤ total_files (mem s)
  ∧ Z.of_nat (length (results (mem s))) ≤ total_files (mem s)
  ∧ (files_processed (mem s) = total_files (mem s) ↔ all_counted s).
Proof.
  intros Hmax Hinv.
  pose proof (search_inv_counts _ _ _ Hinv) as Hn.
  pose proof (counted_in_flight (workers (pool s))) as Hc.
  pose proof (scanned_in_flight (workers (pool s))) as Hsc.
  pose proof (Permutation_length (si_results _ _ _ _ _ Hinv)) as Hr.
  pose proof (length_omap_le (task_result searchTerm)
                (completed (pool_events ls) ++ omap scanned (workers (pool s)))) as Hrl.
  rewrite length_app in Hrl. fold (in_flight (pool s)) in Hc, Hsc.
  assert (Ht : total_files (mem s) = Z.of_nat (length (regular entries))).
  { rewrite (si_total _ _ _ _ _ Hinv). apply wrap_int_id.
    unfold is_int, INT_MIN, INT_MAX in *. lia. }
  assert (Hp : files_processed (mem s)
               = Z.of_nat (length (completed (pool_events ls))
                           + sum_list_with counted (workers (pool s)))).
  { rewrite (si_processed _ _ _ _ _ Hinv). apply wrap_int_id.
    unfold is_int, INT_MIN, INT_MAX in *. lia. }
  split; [done|]. split; [done|]. split; [lia|]. split; [lia|].
  rewrite Hp, Ht. unfold all_counted. split.
  - intros Heq.
    assert (Hall : (length (omap running (workers (pool s)))
                    ≤ sum_list_with counted (workers (pool s)))%nat)
      by (fold (in_flight (pool s)); lia).
    apply all_counted_scanned in Hall as [_ Hall].
    split; [apply length_zero_iff_nil; lia|].
    split; [apply length_zero_iff_nil; lia | done].
  - intros (Hrest & Htasks & Hall). apply counted_all in Hall.
    fold (in_flight (pool s)) in Hall. rewrite Hrest, Htasks in Hn. simpl in Hn. lia.
Qed.


Lemma in_flight_enqueued entries ls s i t c :
  search_inv searchTerm threads entries ls s →
  workers (pool s) !! i = Some (Running t c) →
  ∃ e, t = Scan e ∧ e ∈ regular entries ∧ LEnqueue e ∈ ls.
Proof.
  intros Hinv Hi.
  assert (Hfl : t ∈ in_flight (pool s)).
  { unfold in_flight. apply list_elem_of_omap. exists (Running t c).
    split; [by eapply list_elem_of_lookup_2 | done]. }
  assert (Hst : t ∈ started (pool_events ls)).
  { rewrite (inv_flight _ _ _ (si_pool _ _ _ _ _ Hinv)). apply elem_of_app. by right. }
  assert (Hsub : t ∈ submitted (pool_events ls)).
  { rewrite (inv_queue _ _ _ (si_pool _ _ _ _ _ Hinv)). apply elem_of_app. by left. }
  assert (Hreg : t ∈ Scan <$> regular entries).
  { rewrite (si_dispatch _ _ _ _ _ Hinv). apply elem_of_app. by left. }
  apply list_elem_of_fmap in Hreg as (e & -> & He). exists e.
  split; [done|]. split; [done|].
  unfold submitted, pool_events in Hsub.
  apply list_elem_of_omap in Hsub as (ev & Hev & Hsome).
  apply list_elem_of_omap in Hev as (l & Hl & Hle).
  destruct ev as [t'| |]; try done. injection Hsome as ->.
  destruct l; try done. simpl in Hle. by injection Hle as ->.
Qed.

(** C10 (as amended). On a tree with at most [INT_MAX] regular files: a
    worker that is about to compute the progress percentage is inside the
    task of a regular file that was counted and enqueued, and
    [total_files], by which it divides, is at least 1; the denominator kept
    in every progress line written is [total_files], at least 1; and on a
    tree without regular files no progress line is written. *)
Theorem division_denominator entries ls s :
  recursive_directory_iterator root rootPath = Some entries →
  Z.of_nat (length (regular entries)) ≤ INT_MAX →
  srun initial ls s →
  (∀ i t, workers (pool s) !! i = Some (Running t Divide) →
     (∃ e, t = Scan e ∧ e ∈ regular entries ∧ LEnqueue e ∈ ls)
     ∧ 1 ≤ total_files (mem s))
  ∧ (∀ num den processed total,
       Progress num den processed total ∈ cout (mem s) →
       den = total_files (mem s) ∧ 1 ≤ den)
  ∧ (regular entries = [] → ∀ o, o ∈ cout (mem s) → is_progress o = false).
Proof.
  intros Hit Hmax Hrun.
  assert (Hdec : control s = Counting ∨ control s = Thrown
                 ∨ (control s ≠ Counting ∧ control s ≠ Thrown))
    by (destruct (control s); auto).
  destruct Hdec as [Hc|[Hc|[Hc Hthrown]]].
  { apply inv_run in Hrun. unfold inv in Hrun. rewrite Hc in Hrun.
    destruct Hrun as [_ ->]. simpl. split; [done|].
    split; intros; match goal with H : _ ∈ [] |- _ => by apply elem_of_nil in H end. }
  { apply inv_run in Hrun. unfold inv in Hrun. rewrite Hc in Hrun.
    destruct Hrun as (_ & -> & _). simpl. split; [done|].
    split; intros; match goal with H : _ ∈ [] |- _ => by apply elem_of_nil in H end. }
  pose proof (status_when_running _ _ _ Hit Hrun Hc Hthrown) as Hst.
  pose proof (inv_after_count _ _ _ Hit Hst Hrun Hc) as Hinv.
  destruct (search_inv_bounded _ _ _ Hmax Hinv) as (Ht & Hp & Hle & Hr & Hall).
  pose proof (search_inv_counts _ _ _ Hinv) as Hn.
  assert (Hprog : ∀ o, o ∈ cout (mem s) → is_progress o = true →
                       (1 ≤ length (regular entries))%nat).
  { intros o Ho Hpo.
    assert (Hin : o ∈ progress_items (cout (mem s)))
      by (unfold progress_items; by apply list_elem_of_filter).
    pose proof (si_progress_count _ _ _ _ _ Hinv) as Hcount.
    destruct (progress_items (cout (mem s))); [by apply elem_of_nil in Hin|].
    simpl in Hcount. lia. }
  split; [|split].
  - intros i t Hi. split; [by eapply in_flight_enqueued|].
    assert (Hfl : t ∈ in_flight (pool s)).
    { unfold in_flight. apply list_elem_of_omap. exists (Running t Divide).
      split; [by eapply list_elem_of_lookup_2 | done]. }
    destruct (in_flight (pool s)); [by apply elem_of_nil in Hfl|]. simpl in Hn. lia.
  - intros num den processed total Ho.
    pose proof (si_progress _ _ _ _ _ Hinv) as Hpr.
    destruct (proj1 (Forall_forall _ _) Hpr _ Ho num den processed total eq_refl)
      as [Hden _].
    split; [done|]. rewrite Hden.
    specialize (Hprog _ Ho eq_refl). lia.
  - intros Hnil o Ho. destruct (is_progress o) eqn:Hpo; [|done].
    specialize (Hprog _ Ho Hpo). rewrite Hnil in Hprog. simpl in Hprog. lia.
Qed.

Lemma result_of_matches (e : directory_entry) :
  (∀ p ml, result_of searchTerm e = Some (p, ml) → p = path e ∧ ml ≠ [])
  ∧ ((∃ ml, result_of searchTerm e = Some (path e, ml)) ↔ file_matches searchTerm e).
Proof.
  unfold result_of, file_matches. destruct (ifstream e) as [stream|].
  - rewrite matchingLines_numbers.
    destruct (numbers_from searchTerm 0 (file_lines stream)) as [|k ks] eqn:Hnum.
    + split; [done|]. split; [by intros [? ?]|].
      intros (stream' & line & [= <-] & Hin & Hsub).
      pose proof (proj1 (numbers_from_nil _ _ _) Hnum) as Hnone.
      apply found_substring in Hsub. rewrite (Hnone line Hin) in Hsub. done.
    + split; [by intros p ml [= <- <-]|]. split; [|by eauto].
      intros _. exists stream.
      assert (Hne : ¬ ∀ line, line ∈ file_lines stream → found line searchTerm = false).
      { intros Hall. apply (proj2 (numbers_from_nil searchTerm 0 _)) in Hall.
        rewrite Hnum in Hall. done. }
      assert (Hex : ∃ line, line ∈ file_lines stream ∧ found line searchTerm = true).
      { clear Hnum. induction (file_lines stream) as [|l lines' IH].
        - exfalso. apply Hne. intros ? Hin. by apply elem_of_nil in Hin.
        - destruct (found l searchTerm) eqn:Hf.
          + exists l. split; [by left | done].
          + destruct IH as (line & Hin & Hfound).
            * intros Hall. apply Hne. intros l' [-> | Hin]%elem_of_cons; auto.
            * exists line. split; [by right | done]. }
      destruct Hex as (line & Hin & Hfound). exists line.
      split; [done|]. split; [done|]. by apply found_substring.
  - split; [done|]. split; [by intros [? ?] | by intros (? & ? & ? & _)].
Qed.

Lemma results_at_report entries ls s s' :
  recursive_directory_iterator root rootPath = Some entries →
  Z.of_nat (length (regular entries)) ≤ INT_MAX →
  srun initial ls s → sstep s LReport s' →
  results (mem s) ≡ₚ omap (result_of searchTerm) (regular entries).
Proof.
  intros Hit Hmax Hrun Hstep.
  assert (Hc : control s ≠ Counting) by (by inversion Hstep).
  assert (Hthrown : control s ≠ Thrown) by (by inversion Hstep).
  pose proof (status_when_running _ _ _ Hit Hrun Hc Hthrown) as Hst.
  pose proof (inv_after_count _ _ _ Hit Hst Hrun Hc) as Hinv.
  destruct (search_inv_bounded _ _ _ Hmax Hinv) as (Ht & Hp & Hle & Hr & Hall).
  assert (Heq : files_processed (mem s) = total_files (mem s)).
  { inversion Hstep; subst; simpl in *. lia. }
  apply Hall in Heq as (Hrest & Htasks & Hcounted). apply counted_all in Hcounted.
  assert (Hle' : (length (omap running (workers (pool s)))
                  ≤ sum_list_with counted (workers (pool s)))%nat) by lia.
  apply all_counted_scanned in Hle' as [Hscanned _].
  rewrite (si_results _ _ _ _ _ Hinv), Hscanned.
  fold (in_flight (pool s)).
  rewrite <- (inv_flight _ _ _ (si_pool _ _ _ _ _ Hinv)).
  assert (Hsub : started (pool_events ls) ≡ₚ Scan <$> regular entries).
  { rewrite (si_dispatch _ _ _ _ _ Hinv), Hrest, app_nil_r.
    rewrite (inv_queue _ _ _ (si_pool _ _ _ _ _ Hinv)), Htasks. by rewrite app_nil_r. }
  rewrite Hsub, omap_fmap. done.
Qed.

Lemma reported_correct entries ls s s' :
  recursive_directory_iterator root rootPath = Some entries →
  Z.of_nat (length (regular entries)) ≤ INT_MAX →
  srun initial ls s → sstep s LReport s' →
  results (mem s) ≡ₚ omap (result_of searchTerm) (regular entries)
  ∧ (∀ p, p ∈ (results (mem s)).*1
          ↔ ∃ e, e ∈ regular entries ∧ path e = p ∧ file_matches searchTerm e)
  ∧ (∀ p ml, (p, ml) ∈ results (mem s) → ml ≠ [])
  ∧ cout (mem s') = cout (mem s) ++ report (results (mem s)).
Proof.
  intros Hit Hmax Hrun Hstep.
  pose proof (results_at_report _ _ _ _ Hit Hmax Hrun Hstep) as Hres.
  split; [done|]. split; [|split].
  - intros p. rewrite list_elem_of_fmap. split.
    + intros ([p' ml] & -> & Hin). rewrite Hres in Hin.
      apply list_elem_of_omap in Hin as (e & He & Hsome).
      destruct (result_of_matches e) as [Hpath Hm].
      destruct (Hpath _ _ Hsome) as [-> _]. exists e. split; [done|]. split; [done|].
      apply Hm. eauto.
    + intros (e & He & <- & Hmatch).
      destruct (result_of_matches e) as [_ Hm]. apply Hm in Hmatch as [ml Hml].
      exists (path e, ml). split; [done|]. rewrite Hres.
      apply list_elem_of_omap. eauto.
  - intros p ml Hin. rewrite Hres in Hin.
    apply list_elem_of_omap in Hin as (e & He & Hsome).
    by destruct (proj1 (result_of_matches e) _ _ Hsome).
  - by inversion Hstep.
Qed.
End SearchFacts.

(** ** Runs, built from their first step *)

Lemma run_front root rootPath searchTerm threads s l s' ls s'' :
  step root rootPath searchTerm threads s l s' →
  run root rootPath searchTerm threads s' ls s'' →
  run root rootPath searchTerm threads s (l :: ls) s''.
Proof.
  intros Hstep Hrun. induction Hrun as [s'|s' ls s1 l' s2 Hrun IH Hstep'].
  - apply (run_step _ _ _ _ s [] s); [constructor | done].
  - change (l :: ls ++ [l']) with ((l :: ls) ++ [l']). eapply run_step; eauto.
Qed.

Lemma run_app root rootPath searchTerm threads s ls s' ls' s'' :
  run root rootPath searchTerm threads s ls s' →
  run root rootPath searchTerm threads s' ls' s'' →
  run root rootPath searchTerm threads s (ls ++ ls') s''.
Proof.
  intros Hrun Hrun'. induction Hrun' as [s'|s' ls' s1 l' s2 Hrun' IH Hstep'].
  - by rewrite app_nil_r.
  - rewrite app_assoc. eapply run_step; eauto.
Qed.

(** The second loop, run to its end before any worker moves. *)
Lemma dispatch_all root rootPath searchTerm threads rest p m :
  Forall has_status rest →
  ∃ ls,
    run root rootPath searchTerm threads (System (Dispatching rest) p m) ls
      (System (Dispatching [])
         (Pool (workers p) (tasks p ++ (Scan <$> regular rest)) (stop p)) m).
Proof.
  intros Hst. revert p; induction Hst as [|e rest He _ IH]; intros p.
  - exists []. simpl. rewrite app_nil_r. destruct p. constructor.
  - rewrite regular_cons. unfold has_status in He.
    destruct (is_regular_file e) as [[]|] eqn:Hreg; [| |done].
    + destruct (IH (enqueue (Scan e) p)) as [ls Hrun]. exists (LEnqueue e :: ls).
      eapply run_front; [by constructor|]. simpl in Hrun.
      by rewrite <- app_assoc in Hrun.
    + destruct (IH p) as [ls Hrun]. exists (LSkip e :: ls).
      eapply run_front; [by constructor | done].
Qed.

(** ** Trees with many files *)

Lemma walk_full_tree (d : nat) (leaf : node) (p : string) :
  walk p (full_tree (S d) leaf)
  = (Entry (path_append p "0") (full_tree d leaf)
       :: walk (path_append p "0") (full_tree d leaf))
    ++ (Entry (path_append p "1") (full_tree d leaf)
          :: walk (path_append p "1") (full_tree d leaf)).
Proof.
  change (full_tree (S d) leaf)
    with (Dir [("0", full_tree d leaf); ("1", full_tree d leaf)]).
  cbn [walk]. by rewrite app_nil_r.
Qed.

Lemma full_tree_regular (d : nat) (stream : option string) (p : string) :
  Z.of_nat (length (regular (Entry p (full_tree d (File stream))
                               :: walk p (full_tree d (File stream)))))
  = 2 ^ Z.of_nat d.
Proof.
  revert p; induction d as [|d IH]; intros p.
  - reflexivity.
  - rewrite regular_cons.
    change (is_regular_file (Entry p (full_tree (S d) (File stream)))) with (Some false).
    cbv iota. rewrite walk_full_tree. unfold regular. rewrite filter_app, length_app.
    fold (regular (Entry (path_append p "0") (full_tree d (File stream))
                     :: walk (path_append p "0") (full_tree d (File stream)))).
    fold (regular (Entry (path_append p "1") (full_tree d (File stream))
                     :: walk (path_append p "1") (full_tree d (File stream)))).
    rewrite Nat2Z.inj_add, !IH, Nat2Z.inj_succ, Z.pow_succ_r by lia. lia.
Qed.

Lemma full_tree_count (d : nat) (stream : option string) (p : string) :
  Z.of_nat (length (regular (walk p (full_tree (S d) (File stream)))))
  = 2 ^ Z.of_nat (S d).
Proof.
  rewrite <- (full_tree_regular (S d) stream p), regular_cons. reflexivity.
Qed.

Lemma full_tree_first (d : nat) (stream : option string) (p : string) :
  ∃ q rest,
    regular (Entry p (full_tree d (File stream)) :: walk p (full_tree d (File stream)))
    = Entry q (File stream) :: rest.
Proof.
  revert p; induction d as [|d IH]; intros p.
  - by exists p, [].
  - rewrite regular_cons.
    change (is_regular_file (Entry p (full_tree (S d) (File stream)))) with (Some false).
    cbv iota. rewrite walk_full_tree. unfold regular. rewrite filter_app.
    destruct (IH (path_append p "0")) as (q & rest & Heq).
    unfold regular in Heq. rewrite Heq. by eexists _, _.
Qed.

Lemma full_tree_listable (d : nat) (stream : option string) :
  listable (full_tree d (File stream)) = true.
Proof.
  induction d as [|d IH]; [reflexivity|].
  change (full_tree (S d) (File stream))
    with (Dir [("0", full_tree d (File stream)); ("1", full_tree d (File stream))]).
  cbn [listable]. by rewrite IH.
Qed.

Lemma full_tree_status (d : nat) (stream : option string) (p : string) :
  Forall has_status
    (Entry p (full_tree d (File stream)) :: walk p (full_tree d (File stream))).
Proof.
  revert p; induction d as [|d IH]; intros p.
  - by repeat constructor.
  - constructor; [done|]. rewrite walk_full_tree. apply Forall_app. split; apply IH.
Qed.

Lemma full_tree_iterator (d : nat) (stream : option string) (p : string) :
  recursive_directory_iterator (Some (full_tree (S d) (File stream))) p
  = Some (walk p (full_tree (S d) (File stream))).
Proof.
  pose proof (full_tree_listable (S d) stream) as Hl.
  change (full_tree (S d) (File stream))
    with (Dir [("0", full_tree d (File stream)); ("1", full_tree d (File stream))])
    in Hl |- *.
  unfold recursive_directory_iterator. by rewrite Hl.
Qed.

Lemma full_tree_total (d : nat) (stream : option string) (p : string) :
  count_files (walk p (full_tree (S d) (File stream))) 0
  = Some (wrap_int (2 ^ Z.of_nat (S d))).
Proof.
  change 0 with (wrap_int 0) at 1. rewrite count_files_wrap.
  - by rewrite full_tree_count.
  - pose proof (full_tree_status (S d) stream p) as Hst.
    by apply Forall_cons in Hst as [_ Hst].
Qed.

Lemma tree_2_31_total : count_files (walk "d" tree_2_31) 0 = Some INT_MIN.
Proof. unfold tree_2_31. rewrite (full_tree_total 30). reflexivity. Qed.

Lemma tree_2_32_total : count_files (walk "d" tree_2_32) 0 = Some 0.
Proof. unfold tree_2_32. rewrite (full_tree_total 31). reflexivity. Qed.

Lemma tree_first_file (d : nat) (stream : option string) (p : string) :
  ∃ q rest,
    regular (walk p (full_tree (S d) (File stream))) = Entry q (File stream) :: rest.
Proof.
  destruct (full_tree_first (S d) stream p) as (q & rest & Heq).
  rewrite regular_cons in Heq. by exists q, rest.
Qed.

Lemma file_a_matches (q : string) :
  file_matches "a" (Entry q (File (Some "a")))
  ∧ result_of "a" (Entry q (File (Some "a"))) = Some (q, [1]).
Proof.
  split; [|reflexivity]. exists "a", "a". split; [done|]. split.
  - apply list_elem_of_here.
  - by exists "", "".
Qed.

(** From the end of the counting loop to the wait loop with every task
    queued and no worker started. *)
Lemma run_to_wait_loop (d : nat) (threads : nat) (total : Z) :
  count_files (walk "d" (full_tree (S d) (File (Some "a")))) 0 = Some total →
  ∃ ls,
    run (Some (full_tree (S d) (File (Some "a")))) "d" "a" threads initial ls
      (System (Dispatching [])
         (Pool (replicate threads Idle)
            (Scan <$> regular (walk "d" (full_tree (S d) (File (Some "a"))))) false)
         (Memory [] 0 total [])).
Proof.
  intros Hcount.
  destruct (dispatch_all (Some (full_tree (S d) (File (Some "a")))) "d" "a" threads
              (walk "d" (full_tree (S d) (File (Some "a")))) (construct threads)
              (Memory [] 0 total []) (count_files_status _ _ _ Hcount))
    as [ls Hrun].
  exists (LCount :: ls). eapply run_front; [|exact Hrun].
  apply (step_count _ _ _ _ (construct 0) (Memory [] 0 0 []));
    [apply full_tree_iterator | exact Hcount].
Qed.

Opaque full_tree.

(** The wait loop on the two big trees, with the first file of the queue
    named. *)
Lemma tree_2_31_wait_loop :
  ∃ ls q rest,
    regular (walk "d" tree_2_31) = Entry q (File (Some "a")) :: rest
    ∧ run (Some tree_2_31) "d" "a" 1 initial ls
        (System (Dispatching [])
           (Pool [Idle] (Scan (Entry q (File (Some "a"))) :: (Scan <$> rest)) false)
           (Memory [] 0 INT_MIN [])).
Proof.
  destruct (run_to_wait_loop 30 1 INT_MIN tree_2_31_total) as [ls Hrun].
  destruct (tree_first_file 30 (Some "a") "d") as (q & rest & Heq).
  fold tree_2_31 in Hrun, Heq. rewrite Heq in Hrun.
  exists ls, q, rest. split; [exact Heq | exact Hrun].
Qed.

Lemma tree_2_32_wait_loop :
  ∃ ls q rest,
    regular (walk "d" tree_2_32) = Entry q (File (Some "a")) :: rest
    ∧ run (Some tree_2_32) "d" "a" 1 initial ls
        (System (Dispatching [])
           (Pool [Idle] (Scan (Entry q (File (Some "a"))) :: (Scan <$> rest)) false)
           (Memory [] 0 0 [])).
Proof.
  destruct (run_to_wait_loop 31 1 0 tree_2_32_total) as [ls Hrun].
  destruct (tree_first_file 31 (Some "a") "d") as (q & rest & Heq).
  fold tree_2_32 in Hrun, Heq. rewrite Heq in Hrun.
  exists ls, q, rest. split; [exact Heq | exact Hrun].
Qed.


(** With [2 ^ 31] regular files, all of them matching, the wait loop ends at
    once and the driver reports an empty result. *)
Lemma reported_files_overflow :
  ∃ ls s s',
    run (Some tree_2_31) "d" "a" 1 initial ls s
    ∧ step (Some tree_2_31) "d" "a" 1 s LReport s'
    ∧ results (mem s) = []
    ∧ ∃ e, e ∈ regular (walk "d" tree_2_31) ∧ file_matches "a" e.
Proof.
  destruct tree_2_31_wait_loop as (ls & q & rest & Heq & Hrun).
  eexists ls, _, _. split; [exact Hrun|]. split; [|split].
  - apply step_report. by vm_compute.
  - reflexivity.
  - exists (Entry q (File (Some "a"))). split; [|apply file_a_matches].
    rewrite Heq. apply list_elem_of_here.
Qed.

(** C7 fails as stated: with [2 ^ 31] regular files, one run reports
    nothing and another reports a file. *)
Lemma search_not_idempotent_overflow :
  ∃ ls1 s1 s1' ls2 s2 s2',
    run (Some tree_2_31) "d" "a" 1 initial ls1 s1
    ∧ step (Some tree_2_31) "d" "a" 1 s1 LReport s1'
    ∧ run (Some tree_2_31) "d" "a" 1 initial ls2 s2
    ∧ step (Some tree_2_31) "d" "a" 1 s2 LReport s2'
    ∧ results (mem s1) = []
    ∧ results (mem s2) ≠ [].
Proof.
  destruct tree_2_31_wait_loop as (ls & q & rest & Heq & Hrun).
  eexists ls, _, _, (ls ++ [LWorker (Popped 0 _); LWorker (Stepped 0)]), _, _.
  split; [exact Hrun|]. split; [apply step_report; by vm_compute|]. split; [|split; [|split]].
  - eapply run_app; [exact Hrun|].
    eapply run_front.
    { apply step_worker. eapply (worker_pop _ _ _ 0%nat); reflexivity. }
    eapply run_front; [|constructor].
    apply step_worker. eapply (worker_run _ _ _ 0%nat); reflexivity.
  - apply step_report. by vm_compute.
  - reflexivity.
  - intros Hnil. vm_compute in Hnil. discriminate Hnil.
Qed.

(** C10 fails as stated: with [2 ^ 32] regular files [total_files] is 0 when
    a worker is about to divide by it. *)
Lemma division_by_zero_reachable :
  ∃ ls s t,
    run (Some tree_2_32) "d" "a" 1 initial ls s
    ∧ workers (pool s) !! 0%nat = Some (Running t Divide)
    ∧ total_files (mem s) = 0.
Proof.
  destruct tree_2_32_wait_loop as (ls & q & rest & Heq & Hrun).
  eexists (ls ++ [LWorker (Popped 0 _); LWorker (Stepped 0); LWorker (Stepped 0)]), _, _.
  split; [|split].
  - eapply run_app; [exact Hrun|].
    eapply run_front.
    { apply step_worker. eapply (worker_pop _ _ _ 0%nat); reflexivity. }
    eapply run_front.
    { apply step_worker. eapply (worker_run _ _ _ 0%nat); reflexivity. }
    eapply run_front; [|constructor].
    apply step_worker. eapply (worker_run _ _ _ 0%nat); reflexivity.
  - reflexivity.
  - reflexivity.
Qed.

(** ** [search] goes on until it returns, and returns *)

Section SearchProgress.
Variable root : option node.
Variables rootPath searchTerm : string.
Variable threads : nat.

Local Abbreviation sstep := (step root rootPath searchTerm threads).
Local Abbreviation srun := (run root rootPath searchTerm threads).

Lemma work_left_construct (n : nat) :
  work_left task_size (construct (Task:=task) n) = n.
Proof.
  unfold work_left. simpl. induction n as [|n IH]; simpl in *; [done|]. lia.
Qed.

Lemma step_steps_left s l s' :
  sstep s l s' → control s ≠ Counting → (steps_left s' < steps_left s)%nat.
Proof.
  intros Hstep Hc.
  inversion Hstep as [p m entries' total' Hit Hcount | p m Hit
                     | p m e rest He | p m e rest He
                     | p m Hwait | p m | p m Hjoin | c p m ev p' m' Hw];
    subst; try done; unfold steps_left; simpl.
  - unfold work_left. simpl. rewrite sum_list_with_app. simpl. lia.
  - lia.
  - lia.
  - unfold work_left. simpl. lia.
  - lia.
  - apply (worker_step_work_left _ task_size (run_task_size searchTerm)) in Hw. lia.
Qed.

Lemma run_bounded s ls s' :
  srun s ls s' → control s ≠ Counting →
  control s' ≠ Counting ∧ (length ls + steps_left s' ≤ steps_left s)%nat.
Proof.
  induction 1 as [s|s ls s' l s'' Hrun IH Hstep]; intros Hc; [split; [done|simpl; lia]|].
  destruct (IH Hc) as [Hc' Hle].
  pose proof (step_steps_left _ _ _ Hstep Hc') as Hlt.
  split; [by inversion Hstep; subst|]. rewrite length_app. simpl. lia.
Qed.

Lemma run_from_initial ls s :
  srun initial ls s →
  ls = [] ∧ s = initial
  ∨ ∃ l s1 ls', ls = l :: ls' ∧ sstep initial l s1 ∧ srun s1 ls' s.
Proof.
  induction 1 as [s|s ls s' l s'' Hrun IH Hstep]; [by left|]. right.
  destruct IH as [[-> ->] | (l0 & s1 & ls' & -> & Hfirst & Hrest)].
  - exists l, s'', []. repeat split; [done|constructor].
  - exists l0, s1, (ls' ++ [l]). split; [done|]. split; [done|].
    eapply run_step; eauto.
Qed.

(** Every run is finite. *)
Lemma run_length entries ls s :
  recursive_directory_iterator root rootPath = Some entries →
  srun initial ls s →
  (length ls ≤ 6 * length entries + 4 + threads)%nat.
Proof.
  intros Hit Hrun.
  destruct (run_from_initial _ _ Hrun) as [[-> ->] | (l & s1 & ls' & -> & Hfirst & Hrest)];
    [simpl; lia|].
  inversion Hfirst as [p m entries' total' Hit' Hcount' | p m Hit'
                      | | | | | | c p m ev p' m' Hw]; subst.
  - assert (entries' = entries) as -> by congruence.
    apply run_bounded in Hrest as [_ Hle]; [|done].
    unfold steps_left in Hle at 2. simpl in Hle.
    rewrite work_left_construct in Hle. simpl. lia.
  - apply run_bounded in Hrest as [_ Hle]; [|done].
    unfold steps_left in Hle at 2. simpl in Hle.
    rewrite (work_left_construct 0) in Hle. simpl. lia.
  - exfalso. inversion Hw; subst; simpl in *; done.
Qed.

Lemma joined_or_not (ws : list (worker task)) :
  Forall (λ w, w = Exited) ws ∨ ∃ i w, ws !! i = Some w ∧ w ≠ Exited.
Proof.
  induction ws as [|w ws [IH | (i & w' & Hi & Hw)]].
  - left. constructor.
  - destruct w as [|t c|].
    + right. by exists 0%nat, Idle.
    + right. by exists 0%nat, (Running t c).
    + left. by constructor.
  - right. by exists (S i), w'.
Qed.

(** Unless it has returned or thrown, [search] can take a step: no run
    gets stuck, provided the pool has a worker or there is no file to
    scan. *)
Lemma search_progress entries ls s :
  recursive_directory_iterator root rootPath = Some entries →
  Forall has_status entries →
  (0 < threads)%nat ∨ regular entries = [] →
  srun initial ls s → ¬ final s → ∃ l s', sstep s l s'.
Proof.
  intros Hit Hst Hthreads Hrun Hfinal.
  assert (Hdec : control s = Counting ∨ control s ≠ Counting)
    by (destruct (control s); auto).
  destruct Hdec as [Hc|Hc].
  { apply inv_run in Hrun. unfold inv in Hrun. rewrite Hc in Hrun.
    destruct Hrun as [_ ->]. eexists _, _. eapply step_count; [done|].
    exact (count_files_wrap entries 0 Hst). }
  pose proof (inv_after_count _ _ _ _ _ _ _ Hit Hst Hrun Hc) as Hinv.
  pose proof (search_inv_counts _ _ _ _ _ Hinv) as Hn.
  destruct s as [c p m]. simpl in *.
  destruct c as [|rest| | | |]; try done.
  - destruct rest as [|e rest].
    + destruct (decide (files_processed m < total_files m)) as [Hlt|Hge];
        [|eexists _, _; by apply step_report].
      assert (Hne : tasks p ≠ [] ∨ in_flight p ≠ []).
      { destruct (tasks p) as [|t q] eqn:Htasks; [|by left]. right.
        intros Hfl. rewrite Hfl in Hn. simpl in Hn.
        pose proof (counted_in_flight (workers p)) as Hcn.
        fold (in_flight p) in Hcn. rewrite Hfl in Hcn. simpl in Hcn.
        pose proof (si_processed _ _ _ _ _ Hinv) as Hp.
        pose proof (si_total _ _ _ _ _ Hinv) as Ht. simpl in Hp, Ht.
        replace (sum_list_with counted (workers p)) with 0%nat in Hp by lia.
        rewrite Nat.add_0_r, <- Hn, <- Ht in Hp. lia. }
      assert (Hpos : (0 < threads)%nat).
      { destruct Hthreads as [?|Hnil]; [done|]. rewrite Hnil in Hn. simpl in Hn.
        destruct Hne as [Hne|Hne]; [destruct (tasks p) | destruct (in_flight p)];
          simpl in Hn; try done; lia. }
      destruct (pool_progress (run_task searchTerm) threads _ p m Hpos
                  (si_pool _ _ _ _ _ Hinv)) as (ev & [p' m'] & Hw); [tauto|].
      eexists _, _. apply step_worker. exact Hw.
    + pose proof (rest_has_status _ _ _ _ _ Hinv) as Hrest. simpl in Hrest.
      apply Forall_cons in Hrest as [He _]. unfold has_status in He.
      destruct (is_regular_file e) as [[]|] eqn:Hreg; [| |done]; eexists _, _.
      * by apply step_enqueue.
      * by apply step_skip.
  - eexists _, _. apply step_stop.
  - destruct (joined_or_not (workers p)) as [Hj | Hnj].
    + eexists _, _. by apply step_join.
    + assert (Hpos : (0 < threads)%nat).
      { destruct Hnj as (i & w & Hi & _). apply lookup_lt_Some in Hi.
        pose proof (inv_threads _ _ _ (si_pool _ _ _ _ _ Hinv)) as Hlen.
        simpl in Hlen. lia. }
      destruct (pool_progress (run_task searchTerm) threads _ p m Hpos
                  (si_pool _ _ _ _ _ Hinv)) as (ev & [p' m'] & Hw).
      { right. right. split; [|done]. apply (si_stop _ _ _ _ _ Hinv). }
      eexists _, _. apply step_worker. exact Hw.
  - exfalso. apply Hfinal. by left.
  - exfalso. apply Hfinal. by right.
Qed.
End SearchProgress.

(** ** Schedules give runs *)

Section ScheduleFacts.
Variable root : option node.
Variables rootPath searchTerm : string.
Variable threads : nat.

Lemma forallb_has_exited (ws : list (worker task)) :
  forallb has_exited ws = true → Forall (λ w, w = Exited) ws.
Proof.
  induction ws as [|w ws IH]; simpl; [constructor|].
  destruct w; simpl; try done. intros H. constructor; auto.
Qed.

Lemma make_move_step mv s l s' :
  make_move root rootPath searchTerm threads mv s = Some (l, s') →
  step root rootPath searchTerm threads s l s'.
Proof.
  destruct s as [c p m], mv as [|i]; simpl.
  - unfold drive. simpl. destruct c as [|[|e rest]| | | |]; try done.
    + destruct (recursive_directory_iterator root rootPath) as [entries|] eqn:Hit.
      * destruct (count_files entries (total_files m)) as [total|] eqn:Hcount;
          intros [= <- <-]; [by eapply step_count|].
        apply step_throw. by rewrite Hit.
      * intros [= <- <-]. apply step_throw. by rewrite Hit.
    + destruct (decide _); [done|]. intros [= <- <-]. by constructor.
    + destruct (is_regular_file e) as [[]|] eqn:He; [| |done];
        intros [= <- <-]; by constructor.
    + intros [= <- <-]. constructor.
    + destruct (forallb has_exited (workers p)) eqn:Hj; [|done].
      intros [= <- <-]. constructor. by apply forallb_has_exited.
  - unfold work. simpl. destruct (workers p !! i) as [[|t c0|]|] eqn:Hi; try done.
    + destruct (tasks p) as [|t q] eqn:Ht.
      * destruct (stop p) eqn:Hs; [|done]. intros [= <- <-].
        apply step_worker. by constructor.
      * intros [= <- <-]. apply step_worker. by constructor.
    + destruct (run_task searchTerm c0 m) as [m' [c'|]] eqn:Hrun;
        intros [= <- <-]; apply step_worker.
      * by eapply worker_run.
      * by eapply worker_return.
Qed.

Lemma schedule_run mvs s ls s' :
  schedule root rootPath searchTerm threads mvs s = Some (ls, s') →
  run root rootPath searchTerm threads s ls s'.
Proof.
  revert s ls; induction mvs as [|mv mvs IH]; intros s ls; simpl.
  - intros [= <- <-]. constructor.
  - destruct (make_move _ _ _ _ mv s) as [[l s1]|] eqn:Hmv; [|done].
    destruct (schedule _ _ _ _ mvs s1) as [[ls1 s2]|] eqn:Hs; [|done].
    intros [= <- <-]. eapply run_front; [by eapply make_move_step | by apply IH].
Qed.
End ScheduleFacts.


(** ** What [search] reports *)

Section SearchResults.
Variable root : option node.
Variables rootPath searchTerm : string.
Variable threads : nat.

Local Abbreviation sstep := (step root rootPath searchTerm threads).
Local Abbreviation srun := (run root rootPath searchTerm threads).

(** From any state it has reached, [search] can be run until it returns. *)
Lemma search_completes entries ls s :
  recursive_directory_iterator root rootPath = Some entries →
  Forall has_status entries →
  (0 < threads)%nat ∨ regular entries = [] →
  srun initial ls s →
  ∃ ls' s', srun s ls' s' ∧ control s' = Returned.
Proof.
  intros Hit Hst Hthreads.
  assert (Haux : ∀ n ls s, (steps_left s ≤ n)%nat → control s ≠ Counting →
                   srun initial ls s → ∃ ls' s', srun s ls' s' ∧ control s' = Returned).
  { clear ls s. induction n as [|n IH]; intros ls s Hn Hc Hrun.
    - assert (Hfin : final s ∨ ¬ final s).
      { unfold final. destruct (control s); auto; right; by intros [?|?]. }
      destruct Hfin as [[Hret|Hthrown]|Hnot].
      + exists [], s. split; [constructor | done].
      + by destruct (not_thrown _ _ _ _ _ _ _ Hit Hst Hrun).
      + destruct (search_progress _ _ _ _ _ _ _ Hit Hst Hthreads Hrun Hnot)
          as (l & s' & Hstep).
        apply step_steps_left in Hstep; [lia | done].
    - assert (Hfin : final s ∨ ¬ final s).
      { unfold final. destruct (control s); auto; right; by intros [?|?]. }
      destruct Hfin as [[Hret|Hthrown]|Hnot].
      + exists [], s. split; [constructor | done].
      + by destruct (not_thrown _ _ _ _ _ _ _ Hit Hst Hrun).
      + destruct (search_progress _ _ _ _ _ _ _ Hit Hst Hthreads Hrun Hnot)
          as (l & s' & Hstep).
        pose proof (step_steps_left _ _ _ _ _ _ _ Hstep Hc) as Hlt.
        destruct (IH (ls ++ [l]) s') as (ls' & s'' & Hrun' & Hret).
        * lia.
        * by inversion Hstep; subst.
        * eapply run_step; eauto.
        * exists (l :: ls'), s''. split; [|done]. eapply run_front; eauto. }
  intros Hrun.
  assert (Hdec : control s = Counting ∨ control s ≠ Counting)
    by (destruct (control s); auto).
  destruct Hdec as [Hc|Hc]; [|by eapply Haux].
  apply inv_run in Hrun as Hinv. unfold inv in Hinv. rewrite Hc in Hinv.
  destruct Hinv as [-> ->].
  pose proof (count_files_wrap entries 0 Hst) as Hcount.
  change (wrap_int 0) with 0 in Hcount.
  assert (Hstep : sstep initial LCount
                    (System (Dispatching entries) (construct threads)
                       (Memory [] 0 (wrap_int (0 + Z.of_nat (length (regular entries))))
                          [])))
    by (by apply (step_count _ _ _ _ (construct 0) (Memory [] 0 0 []))).
  destruct (Haux _ [LCount]
              (System (Dispatching entries) (construct threads)
                 (Memory [] 0 (wrap_int (0 + Z.of_nat (length (regular entries)))) []))
              (le_n _))
    as (ls' & s' & Hrun' & Hret); [done | |].
  { apply (run_step _ _ _ _ initial [] initial); [constructor | done]. }
  exists (LCount :: ls'), s'. split; [|done]. eapply run_front; eauto.
Qed.

(** C1 (as amended). On a tree with at most [INT_MAX] regular files, whose
    directories can all be opened and whose entries all have a status that
    can be read, searched by a pool with at least one worker: every run is
    finite and can be continued until [search] returns; a run in which
    [search] has returned has gone through the report; and when the driver
    leaves its wait loop and prints the report, the result vector holds, in
    some order, one entry for each regular file below the root that can be
    opened and has at least one line containing the term, and nothing else:
    the paths in it are exactly the paths of those files, no entry has an
    empty list of lines, and what is printed is the report of that
    vector. *)
Theorem reported_files entries :
  recursive_directory_iterator root rootPath = Some entries →
  Forall has_status entries →
  Z.of_nat (length (regular entries)) ≤ INT_MAX →
  (0 < threads)%nat →
  (∀ ls s, srun initial ls s →
     (length ls ≤ 6 * length entries + 4 + threads)%nat
     ∧ (∃ ls' s', srun s ls' s' ∧ control s' = Returned)
     ∧ (control s = Returned → LReport ∈ ls))
  ∧ (∀ ls s s', srun initial ls s → sstep s LReport s' →
       results (mem s) ≡ₚ omap (result_of searchTerm) (regular entries)
       ∧ (∀ p, p ∈ (results (mem s)).*1
               ↔ ∃ e, e ∈ regular entries ∧ path e = p ∧ file_matches searchTerm e)
       ∧ (∀ p ml, (p, ml) ∈ results (mem s) → ml ≠ [])
       ∧ cout (mem s') = cout (mem s) ++ report (results (mem s))).
Proof.
  intros Hit Hst Hmax Hpos. split.
  - intros ls s Hrun. split; [by eapply run_length|]. split.
    + eapply search_completes; eauto.
    + intros Hret. apply (reported_label _ _ _ _ _ _ Hrun). by rewrite Hret.
  - intros ls s s' Hrun Hstep. by eapply reported_correct.
Qed.
End SearchResults.

(** C7 (as amended). On a tree with at most [INT_MAX] regular files, two
    runs of the search (on any numbers of workers) that reach the report
    hold the same entries in their result vectors, possibly in a different
    order. *)
Theorem search_is_idempotent (root : option node) (rootPath searchTerm : string)
    (threads1 threads2 : nat) (entries : list directory_entry)
    (ls1 ls2 : list label) (s1 s1' s2 s2' : system) :
  recursive_directory_iterator root rootPath = Some entries →
  Z.of_nat (length (regular entries)) ≤ INT_MAX →
  run root rootPath searchTerm threads1 initial ls1 s1 →
  step root rootPath searchTerm threads1 s1 LReport s1' →
  run root rootPath searchTerm threads2 initial ls2 s2 →
  step root rootPath searchTerm threads2 s2 LReport s2' →
  results (mem s1) ≡ₚ results (mem s2)
  ∧ ∀ r, r ∈ results (mem s1) ↔ r ∈ results (mem s2).
Proof.
  intros Hit Hmax Hrun1 Hstep1 Hrun2 Hstep2.
  pose proof (results_at_report _ _ _ _ _ _ _ _ Hit Hmax Hrun1 Hstep1) as H1.
  pose proof (results_at_report _ _ _ _ _ _ _ _ Hit Hmax Hrun2 Hstep2) as H2.
  assert (Hperm : results (mem s1) ≡ₚ results (mem s2)) by (by rewrite H1, H2).
  split; [done|]. intros r. by rewrite Hperm.
Qed.

(** ** The theorems at work on small trees *)

Lemma small_run :
  run (Some small_tree) "d" "foo" 2 initial small_labels small_state.
Proof. apply (schedule_run _ _ _ _ small_schedule). vm_compute. reflexivity. Qed.

Lemma small_report :
  step (Some small_tree) "d" "foo" 2 small_state LReport
    (System Reported (pool small_state)
       (Memory (results (mem small_state)) (files_processed (mem small_state))
          (total_files (mem small_state))
          (cout (mem small_state) ++ report (results (mem small_state))))).
Proof. apply step_report. vm_compute. discriminate. Qed.

Lemma small_max :
  Z.of_nat (length (regular (walk "d" small_tree))) ≤ INT_MAX.
Proof. vm_compute. discriminate. Qed.

Lemma small_status : Forall has_status (walk "d" small_tree).
Proof. by repeat constructor. Qed.

Lemma zero_workers_run root rootPath searchTerm entries ls s :
  recursive_directory_iterator root rootPath = Some entries →
  Forall has_status entries →
  regular entries ≠ [] →
  Z.of_nat (length (regular entries)) ≤ INT_MAX →
  run root rootPath searchTerm 0 initial ls s →
  workers (pool s) = [] ∧ files_processed (mem s) = 0
  ∧ has_reported (control s) = false ∧ control s ≠ Thrown.
Proof.
  intros Hit Hst Hne Hmax Hrun.
  pose proof (not_thrown _ _ _ _ _ _ _ Hit Hst Hrun) as Hnot.
  revert Hnot. remember initial as s0 eqn:Hs0.
  induction Hrun as [s|s ls s' l s'' Hrun IH Hstep]; subst; [done|].
  intros Hnot.
  assert (Hnot' : control s' ≠ Thrown) by (by eapply not_thrown).
  destruct (IH eq_refl Hnot') as (Hw & Hp & Hrep & _).
  inversion Hstep as [p m entries' total' Hit' Hcount' | p m Hit'
                     | p m e rest He | p m e rest He
                     | p m Hwait | p m | p m Hjoin | c p m ev p' m' Hw'];
    subst; simpl in *; try done.
  - exfalso.
    assert (Hinv : search_inv searchTerm 0 entries ls (System (Dispatching []) p m))
      by (by eapply inv_after_count).
    destruct (search_inv_bounded _ _ _ _ _ Hmax Hinv) as (Ht & _). simpl in Ht.
    destruct (regular entries); [done|]. simpl in Ht. lia.
  - exfalso. inversion Hw'; subst; simpl in *;
      match goal with H : workers _ !! _ = Some _ |- _ => by rewrite Hw in H end.
Qed.
(** C1 fails as stated, in three ways. With [2 ^ 31] regular files, all of
    them matching, the wait loop ends at once and the driver reports an
    empty result. With a pool of no workers a file that matches is never
    reported: no run reaches the report. And below a directory that cannot
    be opened a file that matches is never reported either: the first loop
    throws, and no run scans a file or reaches the report. *)
Lemma reported_files_fails :
  (∃ ls s s',
     run (Some tree_2_31) "d" "a" 1 initial ls s
     ∧ step (Some tree_2_31) "d" "a" 1 s LReport s'
     ∧ results (mem s) = []
     ∧ ∃ e, e ∈ regular (walk "d" tree_2_31) ∧ file_matches "a" e)
  ∧ ((∃ e, e ∈ regular (walk "d" small_tree) ∧ file_matches "foo" e)
     ∧ ∀ ls s, run (Some small_tree) "d" "foo" 0 initial ls s →
               has_reported (control s) = false)
  ∧ ((∃ e, e ∈ regular (walk "d" locked_tree) ∧ file_matches "foo" e)
     ∧ ∀ ls s, run (Some locked_tree) "d" "foo" 1 initial ls s →
               has_reported (control s) = false ∧ results (mem s) = []).
Proof.
  split; [exact reported_files_overflow|]. split; split.
  - exists (Entry "d/a.txt"
              (File (Some ("xfoo" +:+ String newline "bar" +:+ String newline "foo")))).
    split; [apply list_elem_of_here|].
    exists ("xfoo" +:+ String newline "bar" +:+ String newline "foo"), "xfoo".
    split; [done|]. split; [apply list_elem_of_here | by exists "x", ""].
  - intros ls s Hrun.
    by destruct (zero_workers_run (Some small_tree) "d" "foo" (walk "d" small_tree)
                   ls s eq_refl small_status ltac:(vm_compute; discriminate)
                   small_max Hrun) as (_ & _ & ? & _).
  - exists (Entry "d/a.txt" (File (Some "foo"))).
    split; [apply list_elem_of_here|].
    exists "foo", "foo". split; [done|]. split; [apply list_elem_of_here | by exists "", ""].
  - intros ls s Hrun.
    by destruct (throwing_run (Some locked_tree) "d" "foo" 1 ls s eq_refl Hrun)
      as [-> | ->].
Qed.

Lemma reported_files_witness :
  results (mem small_state) ≡ₚ [("d/a.txt", [1; 3])].
Proof.
  exact (proj1 (proj2 (reported_files (Some small_tree) "d" "foo" 2
                         (walk "d" small_tree) eq_refl small_status small_max
                         (Nat.lt_0_succ 1))
                  small_labels small_state _ small_run small_report)).
Defined.


Lemma division_denominator_witness :
  Forall (λ o, ∀ num den processed total, o = Progress num den processed total → 1 ≤ den)
    (cout (mem small_state)).
Proof.
  pose proof (division_denominator (Some small_tree) "d" "foo" 2 (walk "d" small_tree)
                small_labels small_state eq_refl small_max small_run)
    as (_ & H & _).
  apply Forall_forall. intros o Hin num den processed total ->.
  exact (proj2 (H num den processed total Hin)).
Defined.

Lemma two_files_runs :
  ∃ ls1 s1 ls2 s2,
    run (Some two_files) "d" "foo" 2 initial ls1 s1
    ∧ run (Some two_files) "d" "foo" 2 initial ls2 s2
    ∧ results (mem s1) = [("d/a.txt", [1]); ("d/b.txt", [1])]
    ∧ results (mem s2) = [("d/b.txt", [1]); ("d/a.txt", [1])]
    ∧ (¬ files_processed (mem s1) < total_files (mem s1))
    ∧ (¬ files_processed (mem s2) < total_files (mem s2))
    ∧ control s1 = Dispatching [] ∧ control s2 = Dispatching [].
Proof.
  destruct (schedule (Some two_files) "d" "foo" 2 first_worker_first initial)
    as [[ls1 s1]|] eqn:H1; [|by vm_compute in H1].
  destruct (schedule (Some two_files) "d" "foo" 2 second_worker_first initial)
    as [[ls2 s2]|] eqn:H2; [|by vm_compute in H2].
  exists ls1, s1, ls2, s2.
  split; [by eapply schedule_run|]. split; [by eapply schedule_run|].
  vm_compute in H1, H2. injection H1 as <- <-. injection H2 as <- <-.
  repeat split; by vm_compute.
Qed.

Lemma search_is_idempotent_witness :
  ∃ s1 s2,
    results (mem s1) = [("d/a.txt", [1]); ("d/b.txt", [1])]
    ∧ results (mem s2) = [("d/b.txt", [1]); ("d/a.txt", [1])]
    ∧ results (mem s1) ≡ₚ results (mem s2).
Proof.
  destruct two_files_runs
    as (ls1 & s1 & ls2 & s2 & Hrun1 & Hrun2 & Hr1 & Hr2 & Hw1 & Hw2 & Hc1 & Hc2).
  exists s1, s2. split; [exact Hr1|]. split; [exact Hr2|].
  destruct s1 as [c1 p1 m1], s2 as [c2 p2 m2]. simpl in Hc1, Hc2. subst c1 c2.
  exact (proj1 (search_is_idempotent (Some two_files) "d" "foo" 2 2
                  (walk "d" two_files) ls1 ls2 _ _ _ _ eq_refl
                  ltac:(vm_compute; discriminate)
                  Hrun1 (step_report _ _ _ _ p1 m1 Hw1)
                  Hrun2 (step_report _ _ _ _ p2 m2 Hw2))).
Defined.

(** ** [main] *)

Section MainFacts.
Variable filesystem : string → option node.
Variable hardware_concurrency : nat.


Lemma no_progress_items (out : list out_item) :
  progress_items out = [] → driver_items out = out.
Proof.
  unfold progress_items, driver_items. induction out as [|o out IH]; [done|].
  rewrite !filter_cons. destruct (is_progress o) eqn:Ho.
  - destruct (decide (true = true)); done.
  - destruct (decide (false = true)), (decide (false = false)); try done.
    intros H. by rewrite (IH H).
Qed.

(** When the argument exists and the first loop of [search] throws, [main]
    has one outcome: the starting line, the error message, and exit code 1. *)
Lemma main_first_loop_throws (argv0 directoryPath searchTerm : string)
    (more : list string) :
  exists_ filesystem directoryPath = Some true →
  recursive_directory_iterator (filesystem directoryPath) directoryPath
    ≫= (λ entries, count_files entries 0) = None →
  let failure :=
    Outcome [Text ("Searching for '" +:+ searchTerm +:+ "' in "
                   +:+ directoryPath +:+ endl)]
      ["Filesystem error: " +:+ what +:+ endl] 1 in
  main filesystem hardware_concurrency (argv0 :: directoryPath :: searchTerm :: more)
    failure
  ∧ ∀ o, main filesystem hardware_concurrency
           (argv0 :: directoryPath :: searchTerm :: more) o → o = failure.
Proof.
  intros Hex Hthrows failure. split.
  - apply (main_filesystem_error filesystem hardware_concurrency argv0 directoryPath
             searchTerm more [LThrow] (System Thrown (construct 0) (Memory [] 0 0 [])));
      [done | | done].
    apply (run_step _ _ _ _ initial [] initial); [constructor | by constructor].
  - intros o Hmain.
    inversion Hmain as [ | | ? ? ? ? ls s _ Hrun Hret
                       | ? ? ? ? ls s _ Hrun Hthrown | ]; subst.
    + simpl in *. lia.
    + congruence.
    + by destruct (throwing_run _ _ _ _ _ _ Hthrows Hrun) as [-> | ->].
    + by destruct (throwing_run _ _ _ _ _ _ Hthrows Hrun) as [-> | ->].
    + congruence.
Qed.

(** On a tree without regular files nothing is counted, queued, run or
    found, and only the driver writes. *)
Lemma empty_tree_run root rootPath searchTerm entries ls s :
  recursive_directory_iterator root rootPath = Some entries →
  Forall has_status entries →
  regular entries = [] →
  run root rootPath searchTerm hardware_concurrency initial ls s →
  total_files (mem s) = 0 ∧ files_processed (mem s) = 0
  ∧ results (mem s) = [] ∧ tasks (pool s) = [] ∧ in_flight (pool s) = []
  ∧ cout (mem s) = (if has_reported (control s) then report [] else [])
  ∧ control s ≠ Thrown.
Proof.
  intros Hit Hst Hnil Hrun.
  pose proof (not_thrown _ _ _ _ _ _ _ Hit Hst Hrun) as Hnot.
  assert (Hdec : control s = Counting ∨ control s ≠ Counting)
    by (destruct (control s); auto).
  destruct Hdec as [Hc|Hc].
  { apply inv_run in Hrun. unfold inv in Hrun. rewrite Hc in Hrun.
    by destruct Hrun as [_ ->]. }
  pose proof (inv_after_count _ _ _ _ _ _ _ Hit Hst Hrun Hc) as Hinv.
  pose proof (search_inv_counts _ _ _ _ _ Hinv) as Hn.
  rewrite Hnil in Hn. simpl in Hn.
  pose proof (counted_in_flight (workers (pool s))) as Hcn.
  pose proof (scanned_in_flight (workers (pool s))) as Hsc.
  fold (in_flight (pool s)) in Hcn, Hsc.
  assert (Hcompleted : completed (pool_events ls) = [])
    by (apply length_zero_iff_nil; lia).
  assert (Hscanned : omap scanned (workers (pool s)) = [])
    by (apply length_zero_iff_nil; lia).
  assert (Hres : results (mem s) = []).
  { apply Permutation_nil_r. rewrite (si_results _ _ _ _ _ Hinv).
    by rewrite Hcompleted, Hscanned. }
  split; [by rewrite (si_total _ _ _ _ _ Hinv), Hnil|].
  split.
  { rewrite (si_processed _ _ _ _ _ Hinv), Hcompleted.
    replace (sum_list_with counted (workers (pool s))) with 0%nat by lia. done. }
  split; [done|]. split; [apply length_zero_iff_nil; lia|].
  split; [apply length_zero_iff_nil; lia|]. split.
  - destruct (si_report _ _ _ _ _ Hinv) as (rs & Hout & Hpre).
    rewrite Hres in Hpre. apply prefix_nil_inv in Hpre as ->.
    rewrite <- Hout. symmetry. apply no_progress_items.
    apply length_zero_iff_nil. rewrite (si_progress_count _ _ _ _ _ Hinv).
    by rewrite Hcompleted.
  - done.
Qed.

(** C8 (as amended). When the directory argument names a directory below
    which there is no regular file, every directory can be opened and every
    entry has a status that can be read, whatever the number of workers:
    [main] has an outcome and only one, the starting line, the completion
    line and the line that counts 0 files on the output stream, no result
    block, no progress line, nothing on the error stream and exit code 0; in
    every state of the search [total_files] and [files_processed] are 0 and
    no task is queued or running, so the wait loop is left at its first
    test; and whenever a search has printed its completion line the exit
    code of [main] is 0. *)
Theorem empty_directory (argv0 directoryPath searchTerm : string) (more : list string)
    (es : list (string * node)) :
  filesystem directoryPath = Some (Dir es) →
  listable (Dir es) = true →
  Forall has_status (walk directoryPath (Dir es)) →
  regular (walk directoryPath (Dir es)) = [] →
  let argv := argv0 :: directoryPath :: searchTerm :: more in
  let expected :=
    Outcome [ Text ("Searching for '" +:+ searchTerm +:+ "' in "
                    +:+ directoryPath +:+ endl);
              Completed;
              Text ("Found 0 files containing the search term." +:+ endl) ] [] 0 in
  main filesystem hardware_concurrency argv expected
  ∧ (∀ o, main filesystem hardware_concurrency argv o → o = expected)
  ∧ (∀ ls s,
       run (filesystem directoryPath) directoryPath searchTerm hardware_concurrency
         initial ls s →
       total_files (mem s) = 0 ∧ files_processed (mem s) = 0
       ∧ tasks (pool s) = [] ∧ in_flight (pool s) = []
       ∧ ¬ files_processed (mem s) < total_files (mem s))
  ∧ (∀ argv' o, main filesystem hardware_concurrency argv' o →
       Completed ∈ stdout o → exit_code o = 0).
Proof.
  intros Hdir Hlist Hst Hnil argv expected.
  assert (Hit : recursive_directory_iterator (filesystem directoryPath) directoryPath
                = Some (walk directoryPath (Dir es))).
  { rewrite Hdir. unfold recursive_directory_iterator. by rewrite Hlist. }
  assert (Hex : exists_ filesystem directoryPath = Some true).
  { unfold exists_. by rewrite Hdir. }
  split; [|split; [|split]].
  - destruct (search_completes _ _ searchTerm hardware_concurrency _ [] initial Hit Hst
                (or_intror Hnil) (run_nil _ _ _ _ _)) as (ls & s & Hrun & Hret).
    pose proof (empty_tree_run _ _ _ _ _ _ Hit Hst Hnil Hrun)
      as (_ & _ & _ & _ & _ & Hout & _).
    rewrite Hret in Hout. simpl in Hout.
    pose proof (main_search filesystem hardware_concurrency argv0 directoryPath
                  searchTerm more ls s Hex Hrun Hret) as Hmain.
    rewrite Hout in Hmain. exact Hmain.
  - intros o Hmain. inversion Hmain as [ | | ? ? ? ? ls s _ Hrun Hret
                                       | ? ? ? ? ls s _ Hrun Hthrown | ]; subst.
    + simpl in *. lia.
    + congruence.
    + pose proof (empty_tree_run _ _ _ _ _ _ Hit Hst Hnil Hrun)
        as (_ & _ & _ & _ & _ & Hout & _).
      rewrite Hret in Hout. simpl in Hout. by rewrite Hout.
    + by pose proof (empty_tree_run _ _ _ _ _ _ Hit Hst Hnil Hrun)
        as (_ & _ & _ & _ & _ & _ & ?).
    + congruence.
  - intros ls s Hrun.
    pose proof (empty_tree_run _ _ _ _ _ _ Hit Hst Hnil Hrun)
      as (Ht & Hp & _ & Hq & Hf & _ & _).
    rewrite Ht, Hp. repeat split; try done; lia.
  - intros argv' o Hmain Hin.
    inversion Hmain as [ | | | ? ? ? ? ls s _ Hrun Hthrown | ];
      subst; simpl in *; try done.
    + apply list_elem_of_singleton in Hin. done.
    + by apply elem_of_nil in Hin.
    + apply inv_run in Hrun. unfold inv in Hrun. rewrite Hthrown in Hrun.
      destruct Hrun as (_ & -> & _). simpl in Hin.
      apply elem_of_cons in Hin as [?|Hin]; [done | by apply elem_of_nil in Hin].
    + by apply elem_of_nil in Hin.
Qed.
End MainFacts.



(** C8 fails as stated. [guarded] is a directory without a regular file, with
    a directory in it that cannot be opened: the iterator throws in the first
    loop. [links] is a directory that holds only a link that leads back to
    itself: [fs::is_regular_file] throws in the first loop. In both cases
    [main] prints the file system error and returns 1, and never the count
    line with exit code 0. *)
Lemma empty_directory_throws :
  (regular (walk "guarded" (Dir [("notes", Dir []); ("private", Locked)])) = []
   ∧ main guarded_filesystem 4 ["search"; "guarded"; "foo"]
       (Outcome [Text ("Searching for 'foo' in guarded" +:+ endl)]
          ["Filesystem error: " +:+ what +:+ endl] 1)
   ∧ ¬ main guarded_filesystem 4 ["search"; "guarded"; "foo"]
         (Outcome [ Text ("Searching for 'foo' in guarded" +:+ endl);
                    Completed;
                    Text ("Found 0 files containing the search term." +:+ endl) ] [] 0))
  ∧ (regular (walk "links" (Dir [("self", NoStatus)])) = []
     ∧ main guarded_filesystem 4 ["search"; "links"; "foo"]
         (Outcome [Text ("Searching for 'foo' in links" +:+ endl)]
            ["Filesystem error: " +:+ what +:+ endl] 1)
     ∧ ¬ main guarded_filesystem 4 ["search"; "links"; "foo"]
           (Outcome [ Text ("Searching for 'foo' in links" +:+ endl);
                      Completed;
                      Text ("Found 0 files containing the search term." +:+ endl) ]
              [] 0)).
Proof.
  destruct (main_first_loop_throws guarded_filesystem 4 "search" "guarded" "foo" []
              eq_refl eq_refl) as [Hmain Honly].
  destruct (main_first_loop_throws guarded_filesystem 4 "search" "links" "foo" []
              eq_refl eq_refl) as [Hmain' Honly'].
  split; (split; [reflexivity|]; split; [done|]).
  - intros Hexpected. by apply Honly in Hexpected.
  - intros Hexpected. by apply Honly' in Hexpected.
Qed.

Lemma empty_directory_witness :
  main small_filesystem 4 ["search"; "empty"; "foo"]
    (Outcome [ Text ("Searching for 'foo' in empty" +:+ endl);
               Completed;
               Text ("Found 0 files containing the search term." +:+ endl) ] [] 0).
Proof.
  exact (proj1 (empty_directory small_filesystem 4 "search" "empty" "foo" []
                  [("sub", Dir [])] eq_refl eq_refl ltac:(by repeat constructor)
                  eq_refl)).
Defined.

(** A whole run of [main] on [small_tree] with two workers: one file
    matches, on its lines 1 and 3. *)
Example small_search_outcome :
  main small_filesystem 2 ["search"; "d"; "foo"]
    (Outcome
       [ Text ("Searching for 'foo' in d" +:+ endl);
         Progress 2 3 2 3; Progress 2 3 2 3; Progress 3 3 3 3;
         Completed;
         Text ("Found 1 files containing the search term." +:+ endl);
         Text (String newline "Results:" +:+ endl);
         Text ("File: d/a.txt" +:+ endl);
         Text ("  Matching lines: 1, 3" +:+ endl) ] [] 0).
Proof.
  destruct (schedule (small_filesystem "d") "d" "foo" 2
              (small_schedule ++ small_finish) initial) as [[ls s]|] eqn:Hs;
    [|by vm_compute in Hs].
  pose proof (schedule_run _ _ _ _ _ _ _ _ Hs) as Hrun.
  vm_compute in Hs. injection Hs as <- <-.
  exact (main_search small_filesystem 2 "search" "d" "foo" [] _ _ eq_refl Hrun eq_refl).
Qed.

(** * More of the code *)

(** ** The scanner *)

Lemma has_newline_app (a b : string) :
  has_newline (a +:+ b) = has_newline a || has_newline b.
Proof.
  induction a as [|c a IH]; [done|]. simpl. rewrite IH. by rewrite orb_assoc.
Qed.

Lemma file_lines_no_newline (s line : string) :
  line ∈ file_lines s → has_newline line = false.
Proof.
  revert line; induction s as [|c s IH]; intros line; simpl.
  - intros H. by apply elem_of_nil in H.
  - destruct (Ascii.eqb c newline) eqn:Hc.
    + intros [-> | Hin]%elem_of_cons; [done | by apply IH].
    + destruct (file_lines s) as [|l ls].
      * intros ->%list_elem_of_singleton. simpl. by rewrite Hc.
      * intros [-> | Hin]%elem_of_cons.
        -- simpl. rewrite Hc. apply IH. by left.
        -- apply IH. by right.
Qed.

(** X2. A search term that holds a newline is found in no file: the scan
    goes line by line, and no line holds a newline. *)
Theorem newline_term_never_matches (searchTerm stream filepath : string)
    (results : list (string * list Z)) :
  has_newline searchTerm = true →
  (scan_loop searchTerm stream 0 []).2 = []
  ∧ searchInFile (Some stream) filepath searchTerm results = (false, results).
Proof.
  intros Hnl.
  assert (Hnone : (scan_loop searchTerm stream 0 []).2 = []).
  { rewrite matchingLines_numbers. apply numbers_from_nil. intros line Hin.
    destruct (found line searchTerm) eqn:Hf; [|done].
    apply found_substring in Hf as (pre & post & Heq).
    apply file_lines_no_newline in Hin. rewrite Heq, !has_newline_app, Hnl in Hin.
    by rewrite orb_true_r in Hin. }
  split; [done|]. unfold searchInFile. cbv zeta. by rewrite Hnone.
Qed.

Lemma newline_term_never_matches_witness :
  searchInFile (Some ("ab" +:+ endl +:+ "cd")) "f" ("b" +:+ endl +:+ "c") []
  = (false, []).
Proof.
  exact (proj2 (newline_term_never_matches ("b" +:+ endl +:+ "c")
                  ("ab" +:+ endl +:+ "cd") "f" [] eq_refl)).
Defined.

(** X3. [searchInFile] returns [true] exactly when the file can be opened
    and one of its lines contains the term; it then appends one entry, with
    the path it was given and a list of lines that is not empty, and
    otherwise leaves the results as they are. Nothing already in the results
    is changed. *)
Theorem searchInFile_returns (file : option string) (filepath searchTerm : string)
    (results : list (string * list Z)) :
  let r := searchInFile file filepath searchTerm results in
  (r.1 = true ↔ ∃ stream line,
      file = Some stream ∧ line ∈ file_lines stream ∧ substring_of searchTerm line)
  ∧ (r.1 = true → ∃ ml, ml ≠ [] ∧ r.2 = results ++ [(filepath, ml)])
  ∧ (r.1 = false → r.2 = results).
Proof.
  cbv zeta. unfold searchInFile. destruct file as [stream|]; simpl.
  - rewrite matchingLines_numbers.
    destruct (numbers_from searchTerm 0 (file_lines stream)) as [|k ks] eqn:Hnum; simpl.
    + split; [|done]. split; [done|].
      intros (stream' & line & [= <-] & Hin & Hsub).
      pose proof (proj1 (numbers_from_nil _ _ _) Hnum line Hin) as Hf.
      apply found_substring in Hsub. congruence.
    + split; [|split; [|done]].
      * split; [intros _ | done].
        destruct (result_of_matches searchTerm (Entry filepath (File (Some stream))))
          as [_ Hm].
        destruct (proj1 Hm) as (stream' & line & Hopen & Hin & Hsub).
        { unfold result_of. simpl. rewrite matchingLines_numbers, Hnum. eauto. }
        simpl in Hopen. injection Hopen as <-. eauto.
      * intros _. by exists (k :: ks).
  - split; [|done]. split; [done | by intros (? & ? & ? & _)].
Qed.

(** ** The pool *)

Section PoolOrder.
Context {Task Shared : Type}.
Variable run_task : Task → Shared → Shared * option Task.

(** X1. The queue of the pool is first in, first out, and no more tasks run
    at a time than there are workers: the tasks submitted so far are, in
    their order, the tasks popped so far followed by the tasks still queued,
    and the tasks being run are at most as many as the threads the pool was
    built with. *)
Theorem pool_is_fifo (threads : nat) (m0 : Shared)
    (es : list (pool_event Task)) (p : ThreadPool Task) (m : Shared) :
  pool_run run_task (construct threads, m0) es (p, m) →
  submitted es = started es ++ tasks p
  ∧ (length (in_flight p) ≤ threads)%nat.
Proof.
  intros Hrun. split.
  - remember (construct threads, m0) as s0 eqn:Hs0.
    remember (p, m) as s eqn:Hs. revert p m Hs.
    induction Hrun as [s|s es [p' m'] e s'' Hrun IH Hstep]; intros p m Hs; subst.
    + by injection Hs as <- <-.
    + specialize (IH eq_refl p' m' eq_refl).
      rewrite submitted_snoc, started_snoc.
      inversion Hstep as [? ? t Hstop | ? ? Hstop | ? ? ev ? ? Hw]; subst; simpl.
      * by rewrite IH, !app_nil_r, app_assoc.
      * by rewrite IH, !app_nil_r.
      * inversion Hw as [? ? i t q Hi Hq | | |]; subst; simpl;
          rewrite ?app_nil_r; try done.
        rewrite IH, Hq. by rewrite <- app_assoc.
  - pose proof (pool_inv_run _ _ _ _ _ _ Hrun) as Hinv.
    rewrite <- (inv_threads _ _ _ Hinv). unfold in_flight.
    apply length_omap_le.
Qed.
End PoolOrder.

Lemma pool_is_fifo_witness :
  let a := Scan (Entry "d/a" (File (Some "foo"))) in
  let b := Scan (Entry "d/b" (File None)) in
  submitted [Submit a; Submit b; Work (Popped 0 a)]
  = started [Submit a; Submit b; Work (Popped 0 a)] ++ [b].
Proof.
  intros a b.
  assert (Hrun : pool_run (run_task "foo") (construct 1, Memory [] 0 2 [])
                   [Submit a; Submit b; Work (Popped 0 a)]
                   (Pool [Running a a] [b] false, Memory [] 0 2 [])).
  { apply (pool_run_step _ _ [Submit a; Submit b] (Pool [Idle] [a; b] false, Memory [] 0 2 [])).
    - apply (pool_run_step _ _ [Submit a] (Pool [Idle] [a] false, Memory [] 0 2 [])).
      + apply (pool_run_step _ _ [] (construct 1, Memory [] 0 2 [])); [apply pool_run_nil|].
        by apply (pool_submit _ (construct 1)).
      + by apply (pool_submit _ (Pool [Idle] [a] false)).
    - apply pool_work.
      by apply (worker_pop _ (Pool [Idle] [a; b] false) (Memory [] 0 2 []) 0 a [b]). }
  exact (proj1 (pool_is_fifo (run_task "foo") 1 _ _ _ _ Hrun)).
Defined.

(** ** The paths of the walk *)

Lemma node_induction (P : node → Prop) :
  (∀ stream, P (File stream)) →
  P Other → P Locked → P NoStatus →
  (∀ entries, Forall (λ x, P x.2) entries → P (Dir entries)) →
  ∀ n, P n.
Proof.
  intros Hfile Hother Hlocked Hnostatus Hdir.
  fix IH 1. intros [stream|entries| | |];
    [apply Hfile | | apply Hother | apply Hlocked | apply Hnostatus].
  apply Hdir. induction entries as [|[name child] entries IHentries];
    constructor; [apply IH | apply IHentries].
Qed.

Lemma string_app_assoc (p a b : string) : (p +:+ a) +:+ b = p +:+ (a +:+ b).
Proof.
  induction p as [|c p IH]; [done|].
  change (String c ((p +:+ a) +:+ b) = String c (p +:+ a +:+ b)). by rewrite IH.
Qed.

Lemma extends_trans (p q r : string) : extends p q → extends q r → extends p r.
Proof. intros [a ->] [b ->]. exists (a +:+ b). apply string_app_assoc. Qed.

Lemma path_append_extends (p name : string) : extends p (path_append p name).
Proof.
  unfold path_append. destruct (ends_with_slash p); [by exists name|].
  by exists ("/" +:+ name).
Qed.

Lemma walk_extends (n : node) :
  ∀ p e, e ∈ walk p n → extends p (path e).
Proof.
  induction n as [stream| | | |entries IH] using node_induction; intros p e;
    try (intros H; by apply elem_of_nil in H).
  cbn [walk]. induction IH as [|[name child] entries Hchild _ IHentries].
  - intros H. by apply elem_of_nil in H.
  - intros [-> | [Hin | Hin]%elem_of_app]%elem_of_cons.
    + apply path_append_extends.
    + eapply extends_trans; [apply path_append_extends | by apply Hchild].
    + by apply IHentries.
Qed.

Section SearchMore.
Variable root : option node.
Variables rootPath searchTerm : string.
Variable threads : nat.

Local Abbreviation sstep := (step root rootPath searchTerm threads).
Local Abbreviation srun := (run root rootPath searchTerm threads).

Lemma completed_submitted entries ls s t :
  search_inv searchTerm threads entries ls s →
  t ∈ completed (pool_events ls) ∨ t ∈ in_flight (pool s) →
  ∃ e, t = Scan e ∧ e ∈ regular entries.
Proof.
  intros Hinv Ht.
  assert (Hst : t ∈ started (pool_events ls)).
  { rewrite (inv_flight _ _ _ (si_pool _ _ _ _ _ Hinv)). apply elem_of_app. tauto. }
  assert (Hsub : t ∈ submitted (pool_events ls)).
  { rewrite (inv_queue _ _ _ (si_pool _ _ _ _ _ Hinv)). apply elem_of_app. by left. }
  assert (Hreg : t ∈ Scan <$> regular entries).
  { rewrite (si_dispatch _ _ _ _ _ Hinv). apply elem_of_app. by left. }
  apply list_elem_of_fmap in Hreg as (e & -> & He). eauto.
Qed.

(** X4. At every moment of every run, on a tree of any size, an entry of
    the result vector is the entry [searchInFile] computes for a regular file
    below the root: its path is the path of that file and starts with the
    path the search was given, the file can be opened and has a line that
    contains the term, and its list of lines is not empty. *)
Theorem results_are_sound entries ls s q ml :
  recursive_directory_iterator root rootPath = Some entries →
  srun initial ls s →
  (q, ml) ∈ results (mem s) →
  ∃ e, e ∈ regular entries ∧ path e = q ∧ extends rootPath q
       ∧ result_of searchTerm e = Some (q, ml)
       ∧ file_matches searchTerm e ∧ ml ≠ [].
Proof.
  intros Hit Hrun Hin.
  assert (Hdec : control s = Counting ∨ control s ≠ Counting)
    by (destruct (control s); auto).
  destruct Hdec as [Hc|Hc].
  { apply inv_run in Hrun. unfold inv in Hrun. rewrite Hc in Hrun.
    destruct Hrun as [_ ->]. by apply elem_of_nil in Hin. }
  assert (Hthrown : control s ≠ Thrown).
  { intros Hthrown. apply inv_run in Hrun. unfold inv in Hrun.
    rewrite Hthrown in Hrun. destruct Hrun as (_ & -> & _).
    by apply elem_of_nil in Hin. }
  pose proof (status_when_running _ _ _ _ _ _ _ Hit Hrun Hc Hthrown) as Hst.
  pose proof (inv_after_count _ _ _ _ _ _ _ Hit Hst Hrun Hc) as Hinv.
  rewrite (si_results _ _ _ _ _ Hinv) in Hin.
  apply list_elem_of_omap in Hin as (t & Ht & Hres).
  assert (Hsub : ∃ e, t = Scan e ∧ e ∈ regular entries).
  { apply (completed_submitted entries ls s t Hinv).
    apply elem_of_app in Ht as [Ht | Ht]; [by left | right].
    apply list_elem_of_omap in Ht as (w & Hw & Hsc).
    unfold in_flight. apply list_elem_of_omap. exists w. split; [done|].
    destruct w as [|t' c|]; try done.
    destruct c; simpl in Hsc; try done; by injection Hsc as ->. }
  destruct Hsub as (e & -> & He). simpl in Hres.
  destruct (result_of_matches searchTerm e) as [Hpath Hm].
  destruct (Hpath _ _ Hres) as [-> Hne].
  exists e. split; [done|]. split; [done|]. split.
  - unfold regular in He. apply list_elem_of_filter in He as [_ He].
    apply iterator_walk in Hit as (es & _ & _ & ->).
    by apply (walk_extends (Dir es)) in He.
  - split; [done|]. split; [|done]. apply Hm. eauto.
Qed.

(** X5. With at least one worker, on a tree of any size: when [search]
    returns, the result vector holds, in some order, exactly the entries of
    the regular files that can be opened and have a matching line, one
    progress line has been written for every regular file, and no task is
    left in the queue or in a worker. *)
Theorem results_when_search_returns entries ls s :
  recursive_directory_iterator root rootPath = Some entries →
  (0 < threads)%nat →
  srun initial ls s →
  control s = Returned →
  results (mem s) ≡ₚ omap (result_of searchTerm) (regular entries)
  ∧ length (progress_items (cout (mem s))) = length (regular entries)
  ∧ tasks (pool s) = [] ∧ in_flight (pool s) = [].
Proof.
  intros Hit Hpos Hrun Hret.
  assert (Hc : control s ≠ Counting) by (by rewrite Hret).
  assert (Hthrown : control s ≠ Thrown) by (by rewrite Hret).
  pose proof (status_when_running _ _ _ _ _ _ _ Hit Hrun Hc Hthrown) as Hst.
  pose proof (inv_after_count _ _ _ _ _ _ _ Hit Hst Hrun Hc) as Hinv.
  pose proof (si_joined _ _ _ _ _ Hinv Hret) as Hj.
  destruct (joined_drained threads _ _ Hpos (si_pool _ _ _ _ _ Hinv) Hj) as [Hq Hsub].
  pose proof (joined_in_flight _ Hj) as Hfl.
  pose proof (scanned_in_flight (workers (pool s))) as Hsc.
  fold (in_flight (pool s)) in Hsc. rewrite Hfl in Hsc. simpl in Hsc.
  assert (Hscanned : omap scanned (workers (pool s)) = [])
    by (apply length_zero_iff_nil; lia).
  pose proof (si_dispatch _ _ _ _ _ Hinv) as Hd.
  rewrite Hret in Hd. simpl in Hd. rewrite app_nil_r in Hd.
  split; [|split; [|done]].
  - rewrite (si_results _ _ _ _ _ Hinv), Hscanned, app_nil_r, <- Hsub, <- Hd.
    by rewrite omap_fmap.
  - rewrite (si_progress_count _ _ _ _ _ Hinv), <- Hsub, <- Hd. by rewrite length_fmap.
Qed.
End SearchMore.

Lemma small_final_run :
  run (Some small_tree) "d" "foo" 2 initial small_final_labels small_final_state.
Proof.
  apply (schedule_run _ _ _ _ (small_schedule ++ small_finish)). vm_compute. reflexivity.
Qed.

Lemma results_are_sound_witness :
  ∃ e, e ∈ regular (walk "d" small_tree) ∧ path e = "d/a.txt" ∧ extends "d" "d/a.txt"
       ∧ result_of "foo" e = Some ("d/a.txt", [1; 3])
       ∧ file_matches "foo" e ∧ [1; 3] ≠ [].
Proof.
  exact (results_are_sound (Some small_tree) "d" "foo" 2 (walk "d" small_tree)
           small_final_labels small_final_state "d/a.txt" [1; 3] eq_refl
           small_final_run (list_elem_of_here _ _)).
Defined.

Lemma results_when_search_returns_witness :
  results (mem small_final_state) ≡ₚ [("d/a.txt", [1; 3])]
  ∧ length (progress_items (cout (mem small_final_state))) = 3%nat.
Proof.
  pose proof (results_when_search_returns (Some small_tree) "d" "foo" 2
                (walk "d" small_tree) small_final_labels small_final_state
                eq_refl (Nat.lt_0_succ 1) small_final_run eq_refl) as (H1 & H2 & _).
  exact (conj H1 H2).
Defined.

(** ** Within the range of [int] *)

Lemma report_not_progress (rs : list (string * list Z)) (o : out_item) :
  o ∈ report rs → is_progress o = false.
Proof.
  intros Ho. destruct (report_driver_items rs) as [Hd _].
  rewrite <- Hd in Ho. unfold driver_items in Ho.
  by apply list_elem_of_filter in Ho as [? _].
Qed.

Lemma report_progress_ok (total : Z) (rs : list (string * list Z)) :
  Forall (progress_ok total) (report rs).
Proof.
  apply Forall_forall. intros o Ho. apply report_not_progress in Ho. by destruct o.
Qed.

Section SearchBounded.
Variable root : option node.
Variables rootPath searchTerm : string.
Variable threads : nat.
Variable entries : list directory_entry.
Hypothesis Hit : recursive_directory_iterator root rootPath = Some entries.
Hypothesis Hst : Forall has_status entries.
Hypothesis Hmax : Z.of_nat (length (regular entries)) ≤ INT_MAX.

Local Abbreviation sstep := (step root rootPath searchTerm threads).
Local Abbreviation srun := (run root rootPath searchTerm threads).

Lemma bounded_inv_worker ls c p m e p' m' :
  srun initial ls (System c p m) →
  c ≠ Counting →
  worker_step (run_task searchTerm) (p, m) e (p', m') →
  bounded_inv (System c p m) → bounded_inv (System c p' m').
Proof.
  intros Hrun Hc Hstep [Ha Hb Hr]. simpl in *.
  pose proof (inv_after_count _ _ _ _ _ _ _ Hit Hst Hrun Hc) as Hinv.
  destruct (search_inv_bounded _ _ _ _ _ Hmax Hinv) as (Ht & Hp & Hle & _ & Hall).
  simpl in *.
  assert (Hrun' : srun initial (ls ++ [LWorker e]) (System c p' m')).
  { eapply run_step; [exact Hrun | by apply step_worker]. }
  pose proof (inv_after_count _ _ _ _ _ _ _ Hit Hst Hrun' Hc) as Hinv'.
  destruct (search_inv_bounded _ _ _ _ _ Hmax Hinv') as (Ht' & Hp' & Hle' & _ & _).
  simpl in *.
  assert (Hother : ∀ i j w t num den,
            i ≠ j → <[i := w]> (workers p) !! j = Some (Running t (Output num den)) →
            1 ≤ num ∧ num ≤ files_processed m).
  { intros i j w t num den Hne Hj. rewrite list_lookup_insert_ne in Hj by done. eauto. }
  assert (Hbusy : ∀ i t c0, workers p !! i = Some (Running t c0) →
            has_reported c = true → c0 = Divide ∨ ∃ num den, c0 = Output num den).
  { intros i t c0 Hi Hrep. destruct (Hr Hrep) as [Heq _].
    apply Hall in Heq as (_ & _ & Hcounted). simpl in Hcounted. eauto. }
  inversion Hstep as [? ? i t q Hi Hq | ? ? i Hi Hstop Hq
                     | ? ? i t c0 ? c' Hi Hrun0 | ? ? i t c0 ? Hi Hrun0]; subst; simpl in *.
  - (* pop *)
    destruct (queued_is_scan searchTerm threads entries ls (System c p m') t Hinv)
      as (e0 & -> & _).
    { simpl. rewrite Hq. by left. }
    split; simpl; [|done|done].
    intros j t num den Hj. destruct (decide (i = j)) as [->|Hne]; [|by eauto].
    rewrite list_lookup_insert_eq in Hj by (by eapply lookup_lt_Some). done.
  - (* exit *)
    split; simpl; [|done|done].
    intros j t num den Hj. destruct (decide (i = j)) as [->|Hne]; [|by eauto].
    rewrite list_lookup_insert_eq in Hj by (by eapply lookup_lt_Some). done.
  - (* a step inside a task *)
    pose proof (Forall_lookup_1 _ _ _ _ (si_workers _ _ _ _ _ Hinv) Hi)
      as (e0 & -> & He0 & Hc0).
    pose proof (sum_list_insert counted _ i _ (Running (Scan e0) c') Hi) as Hcn.
    destruct Hc0 as [-> | [-> | [-> | [num0 ->]]]]; simpl in Hrun0;
      try discriminate Hrun0; injection Hrun0 as <- <-; simpl in *.
    + split; simpl; [|done|].
      * intros j t num den Hj. destruct (decide (i = j)) as [->|Hne]; [|by eauto].
        rewrite list_lookup_insert_eq in Hj by (by eapply lookup_lt_Some). done.
      * intros Hrep. destruct (Hbusy _ _ _ Hi Hrep) as [?|(? & ? & ?)]; done.
    + split; simpl; [|done|].
      * intros j t num den Hj. destruct (decide (i = j)) as [->|Hne].
        -- rewrite list_lookup_insert_eq in Hj by (by eapply lookup_lt_Some). done.
        -- destruct (Hother _ _ _ _ _ _ Hne Hj). split; [done|].
           rewrite pool_events_snoc in Hp'. simpl in Hp'.
           rewrite completed_snoc, app_nil_r in Hp'. lia.
      * intros Hrep. destruct (Hbusy _ _ _ Hi Hrep) as [?|(? & ? & ?)]; done.
    + split; simpl; [|done|done].
      intros j t num den Hj. destruct (decide (i = j)) as [->|Hne]; [|by eauto].
      rewrite list_lookup_insert_eq in Hj by (by eapply lookup_lt_Some).
      injection Hj as _ <- _.
      pose proof (sum_list_with_in _ counted _ (list_elem_of_lookup_2 _ _ _ Hi)) as Hone.
      simpl in Hone. lia.
  - (* the task returns *)
    pose proof (Forall_lookup_1 _ _ _ _ (si_workers _ _ _ _ _ Hinv) Hi)
      as (e0 & -> & He0 & Hc0).
    destruct Hc0 as [-> | [-> | [-> | [num0 ->]]]]; simpl in Hrun0;
      try discriminate Hrun0.
    injection Hrun0 as <-; simpl in *.
    destruct (Ha _ _ _ _ Hi) as [Hnum1 Hnum2].
    split; simpl.
    + intros j t num den Hj. destruct (decide (i = j)) as [->|Hne]; [|by eauto].
      rewrite list_lookup_insert_eq in Hj by (by eapply lookup_lt_Some). done.
    + apply Forall_app. split; [done|]. constructor; [|done]. simpl.
      repeat split; try done; lia.
    + intros Hrep. destruct (Hr Hrep) as [Heq Hout]. split; [done|].
      unfold driver_items in *. rewrite filter_app, Hout. simpl. by rewrite app_nil_r.
Qed.

Lemma bounded_inv_run ls s : srun initial ls s → bounded_inv s.
Proof.
  remember initial as s0 eqn:Hs0.
  induction 1 as [s|s ls s' l s'' Hrun IH Hstep]; subst.
  { split; simpl; [by intros [|?] | constructor | done]. }
  specialize (IH eq_refl).
  assert (Hdec : control s' = Counting ∨ control s' ≠ Counting)
    by (destruct (control s'); auto).
  destruct Hdec as [Hc|Hc].
  { apply inv_run in Hrun as Hinv. unfold inv in Hinv. rewrite Hc in Hinv.
    destruct Hinv as [-> ->].
    inversion Hstep as [p m entries' total' Hit' Hcount' | p m Hit'
                       | | | | | | c p m ev p' m' Hw]; subst.
    - split; simpl; [|constructor|done].
      intros i t num den Hi. by apply lookup_replicate in Hi as [? _].
    - done.
    - exfalso. inversion Hw; subst; simpl in *; done. }
  pose proof (inv_after_count _ _ _ _ _ _ _ Hit Hst Hrun Hc) as Hinv.
  destruct (search_inv_bounded _ _ _ _ _ Hmax Hinv) as (Ht & Hp & Hle & _ & _).
  destruct IH as [Ha Hb Hr].
  inversion Hstep as [p m entries' total' Hit' Hcount' | p m Hit'
                     | p m e rest He | p m e rest He
                     | p m Hwait | p m | p m Hjoin | c p m ev p' m' Hw];
    subst; simpl in *; try done.
  - split; simpl; [done | |].
    + apply Forall_app. split; [done | apply report_progress_ok].
    + intros _. split; [lia|].
      destruct (si_report _ _ _ _ _ Hinv) as (rs & Hout & _). simpl in Hout.
      destruct (report_driver_items (results m)) as [Hd _].
      unfold driver_items in *. by rewrite filter_app, Hout, Hd.
  - eapply bounded_inv_worker; eauto. by split.
Qed.

Lemma progress_ok_run ls s :
  srun initial ls s →
  Forall (progress_ok (Z.of_nat (length (regular entries)))) (cout (mem s)).
Proof.
  intros Hrun. pose proof (bi_progress _ (bounded_inv_run _ _ Hrun)) as Hb.
  assert (Hdec : control s = Counting ∨ control s ≠ Counting)
    by (destruct (control s); auto).
  destruct Hdec as [Hc|Hc].
  { apply inv_run in Hrun. unfold inv in Hrun. rewrite Hc in Hrun.
    destruct Hrun as [_ ->]. constructor. }
  pose proof (inv_after_count _ _ _ _ _ _ _ Hit Hst Hrun Hc) as Hinv.
  destruct (search_inv_bounded _ _ _ _ _ Hmax Hinv) as (Ht & _).
  by rewrite <- Ht.
Qed.

Lemma results_when_counted ls s :
  srun initial ls s → control s ≠ Counting →
  files_processed (mem s) = total_files (mem s) →
  results (mem s) ≡ₚ omap (result_of searchTerm) (regular entries).
Proof.
  intros Hrun Hc Heq.
  pose proof (inv_after_count _ _ _ _ _ _ _ Hit Hst Hrun Hc) as Hinv.
  destruct (search_inv_bounded _ _ _ _ _ Hmax Hinv) as (Ht & Hp & Hle & Hr & Hall).
  apply Hall in Heq as (Hrest & Htasks & Hcounted). apply counted_all in Hcounted.
  assert (Hle' : (length (omap running (workers (pool s)))
                  ≤ sum_list_with counted (workers (pool s)))%nat) by lia.
  apply all_counted_scanned in Hle' as [Hscanned _].
  rewrite (si_results _ _ _ _ _ Hinv), Hscanned.
  fold (in_flight (pool s)).
  rewrite <- (inv_flight _ _ _ (si_pool _ _ _ _ _ Hinv)).
  assert (Hsub : started (pool_events ls) ≡ₚ Scan <$> regular entries).
  { rewrite (si_dispatch _ _ _ _ _ Hinv), Hrest, app_nil_r.
    rewrite (inv_queue _ _ _ (si_pool _ _ _ _ _ Hinv)), Htasks. by rewrite app_nil_r. }
  rewrite Hsub, omap_fmap. done.
Qed.

(** What [search] has written when it returns. *)
Lemma output_when_returned ls s :
  srun initial ls s → control s = Returned →
  driver_items (cout (mem s)) = report (results (mem s))
  ∧ results (mem s) ≡ₚ omap (result_of searchTerm) (regular entries)
  ∧ length (progress_items (cout (mem s))) = length (regular entries)
  ∧ Forall (progress_ok (Z.of_nat (length (regular entries)))) (cout (mem s)).
Proof.
  intros Hrun Hret.
  assert (Hc : control s ≠ Counting) by (by rewrite Hret).
  pose proof (inv_after_count _ _ _ _ _ _ _ Hit Hst Hrun Hc) as Hinv.
  destruct (search_inv_bounded _ _ _ _ _ Hmax Hinv) as (Ht & Hp & Hle & Hr & Hall).
  destruct (bi_reported _ (bounded_inv_run _ _ Hrun)) as [Heq Hout];
    [by rewrite Hret|].
  split; [done|]. split; [by apply (results_when_counted ls)|]. split.
  - pose proof (search_inv_counts _ _ _ _ _ Hinv) as Hn.
    apply Hall in Heq as (Hrest & Htasks & _).
    pose proof (joined_in_flight _ (si_joined _ _ _ _ _ Hinv Hret)) as Hfl.
    rewrite Hrest, Htasks, Hfl in Hn. simpl in Hn.
    by rewrite (si_progress_count _ _ _ _ _ Hinv), Hn.
  - pose proof (bi_progress _ (bounded_inv_run _ _ Hrun)) as Hb. by rewrite <- Ht.
Qed.
End SearchBounded.

Section SearchRange.
Variable root : option node.
Variables rootPath searchTerm : string.
Variable threads : nat.
Variable entries : list directory_entry.
Hypothesis Hit : recursive_directory_iterator root rootPath = Some entries.
Hypothesis Hmax : Z.of_nat (length (regular entries)) ≤ INT_MAX.

Local Abbreviation srun := (run root rootPath searchTerm threads).

(** X6. On a tree with at most [INT_MAX] regular files, every progress line
    is within range: the counter from which its percentage is computed is at
    least 1 and at most the counter shown in the line, which is at most
    [total_files], the number of regular files; so the quotient is above 0
    and at most 1, and the denominator is never 0. *)
Theorem progress_in_range ls s :
  srun initial ls s →
  Forall (progress_ok (Z.of_nat (length (regular entries)))) (cout (mem s)).
Proof.
  intros Hrun.
  destruct (has_status_dec entries) as [Hst|Hnot].
  - by eapply progress_ok_run.
  - destruct (inv_throwing _ _ _ _ _ _ _ Hit Hnot Hrun) as [-> | ->]; constructor.
Qed.
End SearchRange.

Lemma progress_in_range_witness :
  Forall (progress_ok 3) (cout (mem small_final_state)).
Proof.
  exact (progress_in_range (Some small_tree) "d" "foo" 2 (walk "d" small_tree)
           eq_refl small_max small_final_labels small_final_state small_final_run).
Defined.

(** ** More of [main] *)

Section MainMore.
Variable filesystem : string → option node.
Variable hardware_concurrency : nat.

Local Abbreviation main' := (main filesystem hardware_concurrency).

(** X9. With the program name and fewer than two arguments after it, [main] has
    one outcome, whatever the file system holds: the usage line with the
    program name on the output stream, nothing on the error stream, exit
    code 1. *)
Theorem usage_error (argv : list string) :
  (0 < length argv < 3)%nat →
  let usage :=
    Outcome [Text ("Usage: " +:+ default "" (argv !! 0%nat)
                   +:+ " <directory_path> <search_term>" +:+ endl)] [] 1 in
  main' argv usage ∧ ∀ o, main' argv o → o = usage.
Proof.
  intros [_ Hlen] usage. split; [by constructor|].
  intros o Hmain. inversion Hmain; subst; simpl in *; try lia. done.
Qed.

(** X10. When the status of the directory argument can be read and it
    names something that is not a directory, or a directory at or below
    which a directory cannot be opened or an entry has a status that cannot
    be read, [main] has one outcome: the starting line on the output stream,
    the file system error on the error stream, and exit code 1; the pool is
    never built and no file is scanned. *)
Theorem not_a_directory (argv0 directoryPath searchTerm : string) (more : list string)
    (n : node) :
  filesystem directoryPath = Some n →
  n ≠ NoStatus →
  (∀ entries, n = Dir entries →
     listable n = false ∨ ¬ Forall has_status (walk directoryPath n)) →
  let failure :=
    Outcome [Text ("Searching for '" +:+ searchTerm +:+ "' in "
                   +:+ directoryPath +:+ endl)]
      ["Filesystem error: " +:+ what +:+ endl] 1 in
  main' (argv0 :: directoryPath :: searchTerm :: more) failure
  ∧ ∀ o, main' (argv0 :: directoryPath :: searchTerm :: more) o → o = failure.
Proof.
  intros Hn Hstatus Hnot.
  apply main_first_loop_throws.
  - unfold exists_. rewrite Hn. by destruct n.
  - rewrite Hn. unfold recursive_directory_iterator.
    destruct n as [stream|entries| | |]; try done.
    destruct (Hnot entries eq_refl) as [Hl | Hst]; [by rewrite Hl|].
    destruct (listable (Dir entries)); [|done]. simpl.
    by apply count_files_throws.
Qed.

(** X11. When the directory argument names a directory with at most
    [INT_MAX] regular files below it, in which every directory can be opened
    and every entry has a status that can be read, and the pool has at least
    one worker, [main] has an outcome, and every outcome has exit code 0,
    nothing on the error stream, and on the output stream: the starting
    line, one progress line within range for each regular file, and the
    report of a vector that holds, in some order, exactly the entries of the
    files that can be opened and have a matching line (so the count printed
    is their number). *)
Theorem main_reports_matches (argv0 directoryPath searchTerm : string)
    (more : list string) (es : list (string * node)) :
  filesystem directoryPath = Some (Dir es) →
  listable (Dir es) = true →
  Forall has_status (walk directoryPath (Dir es)) →
  (0 < hardware_concurrency)%nat →
  Z.of_nat (length (regular (walk directoryPath (Dir es)))) ≤ INT_MAX →
  let argv := argv0 :: directoryPath :: searchTerm :: more in
  let files := regular (walk directoryPath (Dir es)) in
  (∃ o, main' argv o)
  ∧ ∀ o, main' argv o →
      exit_code o = 0 ∧ stderr o = []
      ∧ length (progress_items (stdout o)) = length files
      ∧ Forall (progress_ok (Z.of_nat (length files))) (stdout o)
      ∧ ∃ rs,
          rs ≡ₚ omap (result_of searchTerm) files
          ∧ driver_items (stdout o)
            = Text ("Searching for '" +:+ searchTerm +:+ "' in "
                    +:+ directoryPath +:+ endl) :: report rs.
Proof.
  intros Hdir Hlist Hst Hpos Hmax argv files.
  assert (Hit : recursive_directory_iterator (filesystem directoryPath) directoryPath
                = Some (walk directoryPath (Dir es))).
  { rewrite Hdir. unfold recursive_directory_iterator. by rewrite Hlist. }
  assert (Hex : exists_ filesystem directoryPath = Some true).
  { unfold exists_. by rewrite Hdir. }
  split.
  - destruct (search_completes _ _ searchTerm hardware_concurrency _ [] initial Hit Hst
                (or_introl Hpos) (run_nil _ _ _ _ _)) as (ls & s & Hrun & Hret).
    eexists. by eapply main_search.
  - intros o Hmain.
    inversion Hmain as [ | | ? ? ? ? ls s _ Hrun Hret
                       | ? ? ? ? ls s _ Hrun Hthrown | ]; subst.
    + simpl in *. lia.
    + congruence.
    + destruct (output_when_returned _ _ searchTerm hardware_concurrency _ Hit Hst Hmax
                  ls s Hrun Hret) as (Hout & Hres & Hcount & Hrange).
      simpl. split; [done|]. split; [done|].
      unfold progress_items, driver_items in *.
      rewrite filter_cons_False by done. rewrite filter_cons_True by done.
      split; [done|]. split; [by constructor|].
      exists (results (mem s)). split; [done|]. by rewrite Hout.
    + by destruct (not_thrown _ _ _ _ _ _ _ Hit Hst Hrun).
    + congruence.
Qed.

End MainMore.

(** X12. When [std::thread::hardware_concurrency()] is 0 and the directory
    holds at least one and at most [INT_MAX] regular files, every directory
    in it can be opened and every entry has a status that can be read,
    [main] has no outcome: the search counts the files and queues their
    tasks, nothing ever runs them, [files_processed] stays 0, and the driver
    never leaves its wait loop, so nothing is reported and the pool is never
    destroyed; every run stops within a bounded number of steps. *)
Theorem no_worker_no_outcome (filesystem : string → option node)
    (argv0 directoryPath searchTerm : string) (more : list string)
    (es : list (string * node)) :
  filesystem directoryPath = Some (Dir es) →
  listable (Dir es) = true →
  Forall has_status (walk directoryPath (Dir es)) →
  regular (walk directoryPath (Dir es)) ≠ [] →
  Z.of_nat (length (regular (walk directoryPath (Dir es)))) ≤ INT_MAX →
  (∀ o, ¬ main filesystem 0 (argv0 :: directoryPath :: searchTerm :: more) o)
  ∧ ∀ ls s,
      run (filesystem directoryPath) directoryPath searchTerm 0 initial ls s →
      files_processed (mem s) = 0 ∧ has_reported (control s) = false
      ∧ (length ls ≤ 6 * length (walk directoryPath (Dir es)) + 4)%nat.
Proof.
  intros Hdir Hlist Hst Hne Hmax.
  assert (Hit : recursive_directory_iterator (filesystem directoryPath) directoryPath
                = Some (walk directoryPath (Dir es))).
  { rewrite Hdir. unfold recursive_directory_iterator. by rewrite Hlist. }
  assert (Hex : exists_ filesystem directoryPath = Some true).
  { unfold exists_. by rewrite Hdir. }
  split.
  - intros o Hmain.
    inversion Hmain as [ | | ? ? ? ? ls s _ Hrun Hret
                       | ? ? ? ? ls s _ Hrun Hthrown | ]; subst.
    + simpl in *. lia.
    + congruence.
    + destruct (zero_workers_run _ _ _ _ _ _ Hit Hst Hne Hmax Hrun)
        as (_ & _ & Hrep & _).
      by rewrite Hret in Hrep.
    + by destruct (zero_workers_run _ _ _ _ _ _ Hit Hst Hne Hmax Hrun)
        as (_ & _ & _ & ?).
    + congruence.
  - intros ls s Hrun.
    destruct (zero_workers_run _ _ _ _ _ _ Hit Hst Hne Hmax Hrun)
      as (_ & Hp & Hrep & _).
    split; [done|]. split; [done|].
    pose proof (run_length _ _ _ _ _ _ _ Hit Hrun) as Hlen. lia.
Qed.

Lemma usage_error_witness :
  main small_filesystem 4 ["search"; "d"]
    (Outcome [Text ("Usage: search <directory_path> <search_term>" +:+ endl)] [] 1).
Proof.
  exact (proj1 (usage_error small_filesystem 4 ["search"; "d"]
                  ltac:(simpl; lia))).
Defined.

Lemma not_a_directory_witness :
  main (λ p, if String.eqb p "notes.txt" then Some (File (Some "foo")) else None) 4
    ["search"; "notes.txt"; "foo"]
    (Outcome [Text ("Searching for 'foo' in notes.txt" +:+ endl)]
       ["Filesystem error: " +:+ what +:+ endl] 1).
Proof.
  exact (proj1 (not_a_directory _ 4 "search" "notes.txt" "foo" [] (File (Some "foo"))
                  eq_refl ltac:(discriminate) ltac:(intros ? [=]))).
Defined.

Lemma main_reports_matches_witness :
  ∃ o, main small_filesystem 2 ["search"; "d"; "foo"] o.
Proof.
  exact (proj1 (main_reports_matches small_filesystem 2 "search" "d" "foo" []
                  _ eq_refl eq_refl small_status (Nat.lt_0_succ 1) small_max)).
Defined.

Lemma stalled_run :
  run (small_filesystem "d") "d" "foo" 0 initial stalled_labels stalled_state.
Proof.
  apply (schedule_run _ _ _ _ [Driver; Driver; Driver; Driver; Driver; Driver]).
  vm_compute. reflexivity.
Qed.

Lemma no_worker_no_outcome_witness :
  length (tasks (pool stalled_state)) = 3%nat
  ∧ files_processed (mem stalled_state) = 0
  ∧ has_reported (control stalled_state) = false
  ∧ (length stalled_labels ≤ 6 * length (walk "d" small_tree) + 4)%nat.
Proof.
  split; [reflexivity|].
  exact (proj2 (no_worker_no_outcome small_filesystem "search" "d" "foo" []
                  _ eq_refl eq_refl small_status ltac:(vm_compute; discriminate)
                  small_max)
           stalled_labels stalled_state stalled_run).
Defined.

(** ** The loop that writes the line numbers *)

Lemma string_app_nil_r (s : string) : s +:+ "" = s.
Proof.
  induction s as [|c s IH]; [done|].
  change (String c s +:+ "") with (String c (s +:+ "")). by rewrite IH.
Qed.

Lemma join_lines_cons (l : Z) (ls : list Z) :
  join_lines (l :: ls)
  = decimal l +:+ (if bool_decide (ls = []) then "" else ", " +:+ join_lines ls).
Proof.
  destruct ls as [|l' ls]; [|done].
  rewrite bool_decide_eq_true_2 by done. by rewrite string_app_nil_r.
Qed.

Lemma lines_loop_from (fuel : nat) (second : list Z) (k : nat) (out : string) :
  Z.of_nat (length second) < 2 ^ 64 →
  (length second ≤ k + fuel)%nat →
  lines_loop fuel second (Z.of_nat k) out = out +:+ join_lines (drop k second).
Proof.
  intros Hsize. revert k out.
  induction fuel as [|fuel IH]; intros k out Hfuel.
  - rewrite drop_ge by lia. by rewrite string_app_nil_r.
  - simpl. destruct (Z.ltb_spec (Z.of_nat k) (Z.of_nat (length second))) as [Hlt|Hge].
    + assert (Hk : (k < length second)%nat) by lia.
      destruct (lookup_lt_is_Some_2 second k Hk) as [x Hx].
      rewrite Nat2Z.id, Hx. simpl.
      rewrite (drop_S _ _ _ Hx), join_lines_cons.
      unfold wrap_size. rewrite !Z.mod_small by lia.
      replace (Z.of_nat k + 1) with (Z.of_nat (S k)) by lia.
      rewrite IH by lia.
      destruct (Z.ltb_spec (Z.of_nat k) (Z.of_nat (length second) - 1)) as [Hin|Hlast].
      * rewrite bool_decide_eq_false_2.
        -- by rewrite !string_app_assoc.
        -- intros Hnil. apply (f_equal length) in Hnil.
           rewrite length_drop in Hnil. simpl in Hnil. lia.
      * rewrite drop_ge by lia. rewrite bool_decide_eq_true_2 by done.
        simpl. by rewrite !string_app_nil_r.
    + rewrite drop_ge by lia. by rewrite string_app_nil_r.
Qed.

Lemma lines_loop_start (fuel : nat) (second : list Z) :
  Z.of_nat (length second) < 2 ^ 64 →
  (length second ≤ fuel)%nat →
  lines_loop fuel second 0 "" = join_lines second.
Proof.
  intros Hsize Hfuel.
  exact (lines_loop_from fuel second 0 "" Hsize Hfuel).
Qed.

(** X8. The inner loop of the report, run on a vector of fewer than 2^64
    line numbers, ends within [size()] iterations and has written the
    numbers in order with [", "] between them and none after the last one
    (on the empty vector the unsigned [size() - 1] wraps, and the loop
    writes nothing since its guard is false at once). *)
Theorem lines_loop_writes_joined (fuel : nat) (second : list Z) :
  Z.of_nat (length second) < 2 ^ 64 →
  (length second ≤ fuel)%nat →
  lines_loop fuel second 0 "" = join_lines second
  ∧ lines_loop fuel second 0 "" = lines_loop (length second) second 0 "".
Proof.
  intros Hsize Hfuel. split.
  - by apply lines_loop_start.
  - rewrite !lines_loop_start; done.
Qed.

Lemma lines_loop_writes_joined_witness :
  lines_loop 5 [3; 7; 12] 0 "" = "3, 7, 12".
Proof.
  exact (proj1 (lines_loop_writes_joined 5 [3; 7; 12] ltac:(simpl; lia) ltac:(simpl; lia))).
Defined.

(** ** What is written stays *)

Lemma run_task_appends (searchTerm : string) (c : task) (m m' : memory)
    (next : option task) :
  run_task searchTerm c m = (m', next) →
  results m `prefix_of` results m' ∧ cout m `prefix_of` cout m'
  ∧ total_files m' = total_files m.
Proof.
  destruct c as [e| | |num den]; simpl; intros [= <- <-]; simpl; try done.
  - rewrite searchInFile_result. split; [by eexists | done].
  - split; [done|]. split; [by eexists | done].
Qed.

(** X7. Nothing that was written is taken back: from any state of the
    search, whatever the threads do next, the result vector and the output
    keep what they held and only grow at the end; and once the counting loop
    is over, [total_files] never changes again. *)
Theorem search_only_appends (root : option node) (rootPath searchTerm : string)
    (threads : nat) (s0 : system) (ls : list label) (s : system) :
  run root rootPath searchTerm threads s0 ls s →
  results (mem s0) `prefix_of` results (mem s)
  ∧ cout (mem s0) `prefix_of` cout (mem s)
  ∧ (control s0 ≠ Counting →
     control s ≠ Counting ∧ total_files (mem s) = total_files (mem s0)).
Proof.
  induction 1 as [s|s ls s' l s'' Hrun IH Hstep]; [done|].
  destruct IH as (Hr & Hc & Ht).
  assert (Hstep' : results (mem s') `prefix_of` results (mem s'')
                   ∧ cout (mem s') `prefix_of` cout (mem s'')
                   ∧ (control s' ≠ Counting →
                      control s'' ≠ Counting
                      ∧ total_files (mem s'') = total_files (mem s'))).
  { inversion Hstep as [p m entries' total' Hit' Hcount' | p m Hit'
                       | p m e rest He | p m e rest He
                       | p m Hwait | p m | p m Hjoin | c p m ev p' m' Hw];
      subst; simpl; try done.
    - split; [done|]. split; [by eexists | done].
    - inversion Hw as [? ? i t q Hi Hq | ? ? i Hi Hstop Hq
                      | ? ? i t c0 ? c' Hi Hrun0 | ? ? i t c0 ? Hi Hrun0];
        subst; simpl; try done;
        destruct (run_task_appends _ _ _ _ _ Hrun0) as (? & ? & ?); done. }
  destruct Hstep' as (Hr' & Hc' & Ht').
  split; [by etrans|]. split; [by etrans|].
  intros H0. destruct (Ht H0) as [Hn Heq]. destruct (Ht' Hn) as [Hn' Heq'].
  split; [done | congruence].
Qed.

Lemma small_finish_run :
  ∃ ls, run (Some small_tree) "d" "foo" 2 small_state ls small_final_state.
Proof.
  eexists. apply (schedule_run _ _ _ _ small_finish). vm_compute. reflexivity.
Qed.

Lemma search_only_appends_witness :
  results (mem small_state) `prefix_of` results (mem small_final_state)
  ∧ cout (mem small_state) `prefix_of` cout (mem small_final_state)
  ∧ total_files (mem small_final_state) = total_files (mem small_state).
Proof.
  destruct small_finish_run as [ls Hrun].
  destruct (search_only_appends (Some small_tree) "d" "foo" 2 small_state ls
              small_final_state Hrun) as (H1 & H2 & H3).
  destruct (H3 ltac:(discriminate)) as [_ H4].
  exact (conj H1 (conj H2 H4)).
Defined.

(** ** The exit code *)

(** X13. The exit code of [main] tells what happened, on every file system
    and with any number of workers: it is 0 or 1; when it is 0 nothing was
    written to the error stream and the output holds the line that says the
    search completed; when it is 1 the output holds neither that line nor a
    progress line, so no file was scanned, and either the arguments were too
    few or the error stream holds a message. *)
Theorem exit_code_tells (filesystem : string → option node)
    (hardware_concurrency : nat) (argv : list string) (o : outcome) :
  main filesystem hardware_concurrency argv o →
  (exit_code o = 0 ∧ stderr o = [] ∧ Completed ∈ stdout o)
  ∨ (exit_code o = 1 ∧ (Completed ∉ stdout o) ∧ progress_items (stdout o) = []
     ∧ ((length argv < 3)%nat ∨ stderr o ≠ [])).
Proof.
  intros Hmain.
  inversion Hmain as [? Hlen | | ? ? ? ? ls s _ Hrun Hret
                     | ? ? ? ? ls s _ Hrun Hthrown | ];
    subst; simpl.
  - right. split; [done|]. split; [|by auto].
    intros Hin. apply list_elem_of_singleton in Hin. done.
  - right. split; [done|]. split; [|by auto].
    intros Hin. by apply elem_of_nil in Hin.
  - left. split; [done|]. split; [done|].
    apply inv_run in Hrun. unfold inv in Hrun. rewrite Hret in Hrun.
    destruct Hrun as (entries & _ & Hinv).
    destruct (si_report _ _ _ _ _ Hinv) as (rs & Hout & _).
    rewrite Hret in Hout. simpl in Hout.
    assert (Hin : Completed ∈ driver_items (cout (mem s))).
    { rewrite Hout. unfold report. apply elem_of_app. left. by left. }
    unfold driver_items in Hin. apply list_elem_of_filter in Hin as [_ Hin].
    by right.
  - right. split; [done|].
    apply inv_run in Hrun. unfold inv in Hrun. rewrite Hthrown in Hrun.
    destruct Hrun as (_ & -> & _). simpl. split; [|by auto].
    intros Hin. apply list_elem_of_singleton in Hin. done.
  - right. split; [done|]. split; [|by auto].
    intros Hin. by apply elem_of_nil in Hin.
Qed.

Lemma exit_code_tells_witness :
  (1 = 0 ∧ ["Directory does not exist." +:+ endl] = [] ∧ Completed ∈ [])
  ∨ (1 = 1 ∧ (Completed ∉ []) ∧ progress_items [] = []
     ∧ ((length ["search"; "nowhere"; "foo"] < 3)%nat
        ∨ ["Directory does not exist." +:+ endl] ≠ [])).
Proof.
  exact (exit_code_tells small_filesystem 4 ["search"; "nowhere"; "foo"]
           (Outcome [] ["Directory does not exist." +:+ endl] 1)
           (main_missing small_filesystem 4 "search" "nowhere" "foo" [] eq_refl)).
Defined.
